(** * anyio._networking: a shallow embedding and its verified properties

    The module [anyio/_networking.py] adapts a non-blocking OS socket to a
    cooperative scheduler.  Its classes are embedded here as functions of a
    state-and-exception monad over an explicit [world]:

    - the raw socket (Python's [socket.socket] / [ssl.SSLSocket]) and the
      scheduler hooks ([_check_cancelled], [_wait_readable], ...) are the
      environment; what they answer is read from scripts held in the world,
      so every theorem quantifies over every behaviour of the environment;
    - every interaction with the environment is appended to a log, so
      ordering properties are statements about that log;
    - [while] loops take fuel; adequacy lemmas show that enough fuel always
      yields a result. *)

From Stdlib Require Import ZArith Lia List Strings.Byte Strings.String.
From stdpp Require Import base option list gmap.
Import ListNotations.

(** ** Bytes and Python's [bytes.find] *)

Abbreviation bytes := (list byte).

Definition b (s : string) : bytes := list_byte_of_string s.

Definition len (x : bytes) : Z := Z.of_nat (length x).

(** [starts_with sub buf]: [buf[0:len(sub)] == sub]. *)
Fixpoint starts_with (sub buf : bytes) : bool :=
  match sub, buf with
  | [], _ => true
  | _ :: _, [] => false
  | x :: sub', y :: buf' => Byte.eqb x y && starts_with sub' buf'
  end.

(** Index of the first occurrence of [sub] in [buf], scanning from the left. *)
Fixpoint search (sub buf : bytes) : option nat :=
  if starts_with sub buf then Some 0
  else match buf with
       | [] => None
       | _ :: buf' => option_map S (search sub buf')
       end.

(** [buf.find(sub, start)] with Python's slice convention for [start]: a
    negative [start] counts from the end of [buf] and is then clipped at 0; a
    [start] beyond the end finds nothing; the result is an index into [buf]
    or -1. *)
Definition find (buf sub : bytes) (start : Z) : Z :=
  let n := len buf in
  let start := if (start <? 0)%Z then Z.max 0 (start + n) else start in
  if (start >? n)%Z then (-1)%Z
  else match search sub (drop (Z.to_nat start) buf) with
       | Some i => (start + Z.of_nat i)%Z
       | None => (-1)%Z
       end.

(** ** Exceptions, addresses, handles *)

Inductive exn :=
| BlockingIOError
| SSLWantReadError
| SSLWantWriteError
| CancelledError
| ValueError
| OSError (code : Z)
| SSLError (reason : nat)
| IncompleteRead (data : bytes)
| DelimiterNotFound (data : bytes)
| StopAsyncIteration.

(** The first component of an address pair either parses as an IP literal
    ([ipaddress.ip_address] returns) or does not (it raises [ValueError]). *)
Inductive host := IPLiteral (s : string) | HostName (s : string).

Inductive address :=
| AddrPair (h : host) (port : Z)
| AddrPath (path : string).

Inductive ssl_context := DefaultContext | Context (id : nat).

(** A raw socket is an OS descriptor, possibly under a TLS session created by
    [SSLContext.wrap_socket]. *)
Inductive raw_socket :=
| PlainSocket (fd : nat)
| SSLSocket (fd : nat) (context : ssl_context) (server_side : bool)
            (server_hostname : option string).

Definition fileno (s : raw_socket) : nat :=
  match s with PlainSocket fd => fd | SSLSocket fd _ _ _ => fd end.

#[global] Instance ssl_context_eq_dec : EqDecision ssl_context.
Proof. solve_decision. Defined.

#[global] Instance raw_socket_eq_dec : EqDecision raw_socket.
Proof. solve_decision. Defined.

Definition MSG_PEEK : Z := 2.

Definition is_peek (flags : Z) : bool := negb (Z.land flags MSG_PEEK =? 0)%Z.

(** ** The environment *)

Inductive raw_call :=
| CallSetblocking (flag : bool)
| CallAccept
| CallBind (a : address)
| CallConnect (a : address)
| CallGetsockopt
| CallRecv (size flags : Z)
| CallRecvInto (nbytes flags : Z)
| CallRecvfrom (size flags : Z)
| CallRecvfromInto (size flags : Z)
| CallSend (data : bytes) (flags : Z)
| CallSendto (data : bytes) (flags : Z) (a : address)
| CallDoHandshake
| CallClose.

Inductive event :=
| EvCheckCancelled
| EvWaitReadable
| EvWaitWritable
| EvNotifyClose
| EvRunInThread
| EvWrapSocket (s : raw_socket)
| EvRaw (s : raw_socket) (c : raw_call).

(** One answer of the raw socket layer: either the call goes through and up
    to [k] bytes can move ([k] more bytes have arrived from the peer, or the
    kernel has room for [k] more outgoing bytes), or the call raises. *)
Inductive step := Xfer (k : nat) | Signal (e : exn).

Record world := World {
  store : gmap nat raw_socket;        (* [_raw_socket] slot of each BaseSocket *)
  next_obj : nat;
  next_fd : nat;
  closed : gset nat;                  (* descriptors released by [close()] *)
  backlog : list address;             (* peers waiting to be accepted *)
  rx_ready : bytes;                   (* received, not yet consumed *)
  rx_pending : bytes;                 (* still in flight; then end-of-stream *)
  wire : bytes;                       (* bytes the kernel accepted for the peer *)
  packets : list (bytes * address);   (* queued datagrams *)
  so_error : Z;                       (* pending SO_ERROR *)
  script : list step;                 (* answers of the raw socket calls *)
  checks : list (option exn);         (* answers of [_check_cancelled] *)
  waits : list (option exn);          (* answers of [_wait_readable/_writable] *)
  log : list event;                   (* every interaction so far, in order *)
  detached : list raw_socket          (* handles that gave up their descriptor *)
}.

Definition set_store f w :=
  World (f (store w)) (next_obj w) (next_fd w) (closed w) (backlog w) (rx_ready w)
        (rx_pending w) (wire w) (packets w) (so_error w) (script w) (checks w)
        (waits w) (log w) (detached w).
Definition set_next_obj f w :=
  World (store w) (f (next_obj w)) (next_fd w) (closed w) (backlog w) (rx_ready w)
        (rx_pending w) (wire w) (packets w) (so_error w) (script w) (checks w)
        (waits w) (log w) (detached w).
Definition set_next_fd f w :=
  World (store w) (next_obj w) (f (next_fd w)) (closed w) (backlog w) (rx_ready w)
        (rx_pending w) (wire w) (packets w) (so_error w) (script w) (checks w)
        (waits w) (log w) (detached w).
Definition set_closed f w :=
  World (store w) (next_obj w) (next_fd w) (f (closed w)) (backlog w) (rx_ready w)
        (rx_pending w) (wire w) (packets w) (so_error w) (script w) (checks w)
        (waits w) (log w) (detached w).
Definition set_backlog f w :=
  World (store w) (next_obj w) (next_fd w) (closed w) (f (backlog w)) (rx_ready w)
        (rx_pending w) (wire w) (packets w) (so_error w) (script w) (checks w)
        (waits w) (log w) (detached w).
Definition set_rx f w :=
  let '(r, p) := f (rx_ready w, rx_pending w) in
  World (store w) (next_obj w) (next_fd w) (closed w) (backlog w) r p
        (wire w) (packets w) (so_error w) (script w) (checks w) (waits w) (log w) (detached w).
Definition set_wire f w :=
  World (store w) (next_obj w) (next_fd w) (closed w) (backlog w) (rx_ready w)
        (rx_pending w) (f (wire w)) (packets w) (so_error w) (script w) (checks w)
        (waits w) (log w) (detached w).
Definition set_packets f w :=
  World (store w) (next_obj w) (next_fd w) (closed w) (backlog w) (rx_ready w)
        (rx_pending w) (wire w) (f (packets w)) (so_error w) (script w) (checks w)
        (waits w) (log w) (detached w).
Definition set_script f w :=
  World (store w) (next_obj w) (next_fd w) (closed w) (backlog w) (rx_ready w)
        (rx_pending w) (wire w) (packets w) (so_error w) (f (script w)) (checks w)
        (waits w) (log w) (detached w).
Definition set_checks f w :=
  World (store w) (next_obj w) (next_fd w) (closed w) (backlog w) (rx_ready w)
        (rx_pending w) (wire w) (packets w) (so_error w) (script w) (f (checks w))
        (waits w) (log w) (detached w).
Definition set_waits f w :=
  World (store w) (next_obj w) (next_fd w) (closed w) (backlog w) (rx_ready w)
        (rx_pending w) (wire w) (packets w) (so_error w) (script w) (checks w)
        (f (waits w)) (log w) (detached w).
Definition set_detached f w :=
  World (store w) (next_obj w) (next_fd w) (closed w) (backlog w) (rx_ready w)
        (rx_pending w) (wire w) (packets w) (so_error w) (script w) (checks w)
        (waits w) (log w) (f (detached w)).
Definition set_log f w :=
  World (store w) (next_obj w) (next_fd w) (closed w) (backlog w) (rx_ready w)
        (rx_pending w) (wire w) (packets w) (so_error w) (script w) (checks w)
        (waits w) (f (log w)) (detached w).

(** ** The monad: state, exceptions, fuel *)

Inductive outcome (A : Type) :=
| Return (a : A)
| Raise (e : exn)
| OutOfFuel.
Arguments Return {A} a.
Arguments Raise {A} e.
Arguments OutOfFuel {A}.

Definition M (A : Type) : Type := world -> outcome A * world.

Definition ret {A} (a : A) : M A := fun w => (Return a, w).
Definition raise {A} (e : exn) : M A := fun w => (Raise e, w).
Definition out_of_fuel {A} : M A := fun w => (OutOfFuel, w).

Definition bnd {A B} (c : M A) (k : A -> M B) : M B :=
  fun w => match c w with
           | (Return a, w') => k a w'
           | (Raise e, w') => (Raise e, w')
           | (OutOfFuel, w') => (OutOfFuel, w')
           end.

(** [try: c  except BaseException as e: h e]; an exception raised by the
    handler itself is not caught again. *)
Definition try_except {A} (c : M A) (h : exn -> M A) : M A :=
  fun w => match c w with
           | (Raise e, w') => h e w'
           | r => r
           end.

Declare Scope m_scope.
Delimit Scope m_scope with m.
Notation "x <- c ;; k" := (bnd c (fun x => k))
  (at level 100, c at next level, right associativity) : m_scope.
Notation "c ;; k" := (bnd c (fun _ => k))
  (at level 100, right associativity) : m_scope.
Local Open Scope m_scope.

Definition get : M world := fun w => (Return w, w).
Definition modify (f : world -> world) : M unit := fun w => (Return tt, f w).
Definition emit (ev : event) : M unit := modify (set_log (fun l => l ++ [ev])).

(** Outcome of a [try] body, for the [except ... else ...] forms. *)
Definition attempt {A} (c : M A) : M (A + exn) :=
  try_except (x <- c ;; ret (inl x)) (fun e => ret (inr e)).

(** ** The scheduler hooks (abstract methods of [BaseSocket]) *)

Definition pop_answer (l : list (option exn)) : option exn * list (option exn) :=
  match l with
  | [] => (None, [])
  | a :: l' => (a, l')
  end.

Definition _check_cancelled : M unit :=
  emit EvCheckCancelled ;;
  w <- get ;;
  modify (set_checks (fun l => snd (pop_answer l))) ;;
  match fst (pop_answer (checks w)) with
  | Some e => raise e
  | None => ret tt
  end.

Definition wait_on (ev : event) : M unit :=
  emit ev ;;
  w <- get ;;
  modify (set_waits (fun l => snd (pop_answer l))) ;;
  match fst (pop_answer (waits w)) with
  | Some e => raise e
  | None => ret tt
  end.

Definition _wait_readable : M unit := wait_on EvWaitReadable.
Definition _wait_writable : M unit := wait_on EvWaitWritable.
Definition _notify_close : M unit := emit EvNotifyClose.
Definition _run_in_thread {A} (func : M A) : M A := emit EvRunInThread ;; func.

(** ** The raw socket *)

(** Next answer of the socket layer; once the script is used up every call
    goes through in full. *)
Definition next_step : M (option step) :=
  w <- get ;;
  match script w with
  | [] => ret None
  | s :: rest => modify (set_script (fun _ => rest)) ;; ret (Some s)
  end.

(** [k] more bytes (all of them for [None]) arrive in the receive buffer. *)
Definition arrive (k : option nat) : M unit :=
  modify (set_rx (fun '(r, p) =>
    match k with
    | Some k => (r ++ take k p, drop k p)
    | None => (r ++ p, [])
    end)).

(** Common part of [recv] and [recv_into]: up to [n] bytes from the receive
    buffer; nothing buffered while the peer has not finished is "would
    block"; nothing buffered at end-of-stream is the empty result. *)
Definition take_rx (n : nat) (peek : bool) : M bytes :=
  w <- get ;;
  match rx_ready w, rx_pending w with
  | [], _ :: _ => raise BlockingIOError
  | ready, _ =>
      (if peek then ret tt
       else modify (set_rx (fun '(r, p) => (drop n r, p)))) ;;
      ret (take n ready)
  end.

(** What a receiving call does once its arguments are accepted: ask the
    socket layer, let the announced bytes arrive, read. *)
Definition rx_call (n : nat) (peek : bool) : M bytes :=
  st <- next_step ;;
  match st with
  | Some (Signal e) => raise e
  | Some (Xfer k) => arrive (Some k) ;; take_rx n peek
  | None => arrive None ;; take_rx n peek
  end.

(** [recv(size, flags)]. A negative size is refused. Any other refusal is an
    answer [Signal e] of the socket layer: in particular the [ValueError] of
    a TLS wrapper asked to receive with non-zero flags is not derived from
    the handle here. *)
Definition raw_recv (s : raw_socket) (size flags : Z) : M bytes :=
  emit (EvRaw s (CallRecv size flags)) ;;
  if (size <? 0)%Z then raise ValueError
  else rx_call (Z.to_nat size) (is_peek flags).

(** A bytearray seen through a memoryview: [mv_buf] is the whole bytearray,
    the view is [mv_buf[mv_start:]]; writing through the view changes the
    bytearray. *)
Record memoryview := MemoryView { mv_buf : bytes; mv_start : nat }.

Definition mv_len (v : memoryview) : nat := length (mv_buf v) - mv_start v.

(** [view[k:]]. *)
Definition mv_slice_from (v : memoryview) (k : nat) : memoryview :=
  MemoryView (mv_buf v) (mv_start v + Nat.min k (mv_len v)).

(** Store [data] at the start of the view. *)
Definition mv_write (v : memoryview) (data : bytes) : memoryview :=
  MemoryView (take (mv_start v) (mv_buf v) ++ data
                ++ drop (mv_start v + length data) (mv_buf v))
             (mv_start v).

(** [recv_into(buffer, nbytes, flags)]: [nbytes = 0] means the size of the
    buffer; a buffer smaller than [nbytes] is refused. Returns the count and
    the buffer as written. *)
Definition raw_recv_into (s : raw_socket) (buffer : memoryview) (nbytes flags : Z)
  : M (Z * memoryview) :=
  emit (EvRaw s (CallRecvInto nbytes flags)) ;;
  if ((nbytes <? 0) || (Z.of_nat (mv_len buffer) <? nbytes))%Z then raise ValueError
  else
    let n := if (nbytes =? 0)%Z then mv_len buffer else Z.to_nat nbytes in
    data <- rx_call n (is_peek flags) ;;
    ret (len data, mv_write buffer data).

(** [send(data, flags)]: the kernel takes a prefix of [data]; no room at all
    for non-empty data is "would block". *)
Definition raw_send (s : raw_socket) (data : bytes) (flags : Z) : M Z :=
  emit (EvRaw s (CallSend data flags)) ;;
  st <- next_step ;;
  match st with
  | Some (Signal e) => raise e
  | st =>
      let n := match st with Some (Xfer k) => Nat.min k (length data) | _ => length data end in
      match n, data with
      | 0, _ :: _ => raise BlockingIOError
      | _, _ => modify (set_wire (fun x => x ++ take n data)) ;; ret (Z.of_nat n)
      end
  end.

Definition raw_setblocking (s : raw_socket) (flag : bool) : M unit :=
  emit (EvRaw s (CallSetblocking flag)).

(** [accept()]: the next waiting peer gets a fresh descriptor. *)
Definition raw_accept (s : raw_socket) : M (raw_socket * address) :=
  emit (EvRaw s CallAccept) ;;
  st <- next_step ;;
  match st with
  | Some (Signal e) => raise e
  | _ =>
      w <- get ;;
      match backlog w with
      | [] => raise BlockingIOError
      | peer :: rest =>
          modify (set_backlog (fun _ => rest)) ;;
          modify (set_next_fd S) ;;
          ret (PlainSocket (next_fd w), peer)
      end
  end.

Definition raw_bind (s : raw_socket) (a : address) : M unit :=
  emit (EvRaw s (CallBind a)) ;;
  st <- next_step ;;
  match st with
  | Some (Signal e) => raise e
  | _ => ret tt
  end.

Definition raw_connect (s : raw_socket) (a : address) : M unit :=
  emit (EvRaw s (CallConnect a)) ;;
  st <- next_step ;;
  match st with
  | Some (Signal e) => raise e
  | _ => ret tt
  end.

(** [getsockopt(SOL_SOCKET, SO_ERROR)]. *)
Definition raw_getsockopt_error (s : raw_socket) : M Z :=
  emit (EvRaw s CallGetsockopt) ;;
  w <- get ;;
  ret (so_error w).

Definition raw_recvfrom (s : raw_socket) (size flags : Z) : M (bytes * address) :=
  emit (EvRaw s (CallRecvfrom size flags)) ;;
  if (size <? 0)%Z then raise ValueError
  else
    st <- next_step ;;
    match st with
    | Some (Signal e) => raise e
    | _ =>
        w <- get ;;
        match packets w with
        | [] => raise BlockingIOError
        | (data, peer) :: rest =>
            (if is_peek flags then ret tt else modify (set_packets (fun _ => rest))) ;;
            ret (take (Z.to_nat size) data, peer)
        end
    end.

Definition raw_recvfrom_into (s : raw_socket) (buffer : memoryview) (size flags : Z)
  : M ((Z * address) * memoryview) :=
  emit (EvRaw s (CallRecvfromInto size flags)) ;;
  if ((size <? 0) || (Z.of_nat (mv_len buffer) <? size))%Z then raise ValueError
  else
    let n := if (size =? 0)%Z then mv_len buffer else Z.to_nat size in
    st <- next_step ;;
    match st with
    | Some (Signal e) => raise e
    | _ =>
        w <- get ;;
        match packets w with
        | [] => raise BlockingIOError
        | (data, peer) :: rest =>
            (if is_peek flags then ret tt else modify (set_packets (fun _ => rest))) ;;
            ret ((len (take n data), peer), mv_write buffer (take n data))
        end
    end.

(** A datagram goes out whole or not at all. *)
Definition raw_sendto (s : raw_socket) (data : bytes) (flags : Z) (a : address) : M Z :=
  emit (EvRaw s (CallSendto data flags a)) ;;
  st <- next_step ;;
  match st with
  | Some (Signal e) => raise e
  | _ => ret (len data)
  end.

(** [close()]: releases the descriptor, unless the handle has given it up
    ([detach()]): closing a detached socket releases nothing. *)
Definition raw_close (s : raw_socket) : M unit :=
  emit (EvRaw s CallClose) ;;
  w <- get ;;
  if decide (s ∈ detached w) then ret tt
  else modify (set_closed (fun c => {[fileno s]} ∪ c)).

(** [fileno()]: the descriptor, or -1 once the socket is closed or
    detached. A plain getter: nothing is asked of the socket layer and
    nothing is logged. *)
Definition raw_fileno (s : raw_socket) : M Z :=
  w <- get ;;
  ret (if decide (s ∈ detached w) then (-1)%Z
       else if decide (fileno s ∈ closed w) then (-1)%Z
       else Z.of_nat (fileno s)).

(** [context.wrap_socket(sock, server_side=..., do_handshake_on_connect=False,
    server_hostname=...)]. It either refuses its arguments and raises, or
    builds the TLS wrapper over the descriptor of [sock] and detaches
    [sock] ([ssl.SSLSocket._create] calls [sock.detach()]): from then on
    the wrapper owns the descriptor and [sock] is a dead handle. A failure
    is always the early one here; a failure while the session object is
    set up, after the detach, is not modelled. *)
Definition wrap_socket (context : ssl_context) (s : raw_socket) (server_side : bool)
    (server_hostname : option string) : M raw_socket :=
  emit (EvWrapSocket s) ;;
  st <- next_step ;;
  match st with
  | Some (Signal e) => raise e
  | _ =>
      modify (set_detached (fun l => s :: l)) ;;
      ret (SSLSocket (fileno s) context server_side server_hostname)
  end.

Definition raw_do_handshake (s : raw_socket) : M unit :=
  emit (EvRaw s CallDoHandshake) ;;
  st <- next_step ;;
  match st with
  | Some (Signal e) => raise e
  | _ => ret tt
  end.

(** ** class BaseSocket *)

Module BaseSocket.

(** A BaseSocket is a reference into the store; its only slot is
    [_raw_socket]. *)
Definition t := nat.

Definition raw_of (self : t) (w : world) : raw_socket :=
  default (PlainSocket self) (store w !! self).

Definition _raw_socket (self : t) : M raw_socket :=
  w <- get ;; ret (raw_of self w).

Definition set_raw_socket (self : t) (s : raw_socket) : M unit :=
  modify (set_store (fun m => <[self := s]> m)).

Definition __init__ (raw : raw_socket) : M t :=
  w <- get ;;
  modify (set_next_obj S) ;;
  set_raw_socket (next_obj w) raw ;;
  raw_setblocking raw false ;;
  ret (next_obj w).

Definition accept (self : t) : M (t * address) :=
  _check_cancelled ;;
  r <- try_except
         (s <- _raw_socket self ;; raw_accept s)
         (fun e => match e with
                   | BlockingIOError =>
                       _wait_readable ;;
                       s <- _raw_socket self ;; raw_accept s
                   | _ => raise e
                   end) ;;
  new <- __init__ (fst r) ;;
  ret (new, snd r).

Definition bind (self : t) (a : address) : M unit :=
  _check_cancelled ;;
  match a with
  | AddrPair (IPLiteral _) _ => s <- _raw_socket self ;; raw_bind s a
  | _ => s <- _raw_socket self ;; _run_in_thread (raw_bind s a)
  end.

Definition close (self : t) : M unit :=
  _notify_close ;;
  s <- _raw_socket self ;;
  raw_close s.

Definition connect (self : t) (a : address) : M unit :=
  _check_cancelled ;;
  try_except
    (s <- _raw_socket self ;; raw_connect s a)
    (fun e => match e with
              | BlockingIOError => _wait_writable
              | _ => raise e
              end) ;;
  s <- _raw_socket self ;;
  error <- raw_getsockopt_error s ;;
  if (error =? 0)%Z then ret tt else raise (OSError error).

Fixpoint recv (fuel : nat) (self : t) (size flags : Z) : M bytes :=
  match fuel with
  | 0 => out_of_fuel
  | S fuel =>
      _check_cancelled ;;
      r <- attempt (s <- _raw_socket self ;; raw_recv s size flags) ;;
      match r with
      | inl data => ret data
      | inr BlockingIOError | inr SSLWantReadError =>
          _wait_readable ;; recv fuel self size flags
      | inr SSLWantWriteError =>
          _wait_writable ;; recv fuel self size flags
      | inr e => raise e
      end
  end.

Fixpoint recv_into (fuel : nat) (self : t) (buffer : memoryview) (nbytes flags : Z)
  : M (Z * memoryview) :=
  match fuel with
  | 0 => out_of_fuel
  | S fuel =>
      _check_cancelled ;;
      r <- attempt (s <- _raw_socket self ;; raw_recv_into s buffer nbytes flags) ;;
      match r with
      | inl res => ret res
      | inr BlockingIOError | inr SSLWantReadError =>
          _wait_readable ;; recv_into fuel self buffer nbytes flags
      | inr SSLWantWriteError =>
          _wait_writable ;; recv_into fuel self buffer nbytes flags
      | inr e => raise e
      end
  end.

Definition recvfrom (self : t) (size flags : Z) : M (bytes * address) :=
  _check_cancelled ;;
  try_except
    (s <- _raw_socket self ;; raw_recvfrom s size flags)
    (fun e => match e with
              | BlockingIOError =>
                  _wait_readable ;;
                  s <- _raw_socket self ;; raw_recvfrom s size flags
              | _ => raise e
              end).

Definition recvfrom_into (self : t) (buffer : memoryview) (size flags : Z)
  : M ((Z * address) * memoryview) :=
  _check_cancelled ;;
  try_except
    (s <- _raw_socket self ;; raw_recvfrom_into s buffer size flags)
    (fun e => match e with
              | BlockingIOError =>
                  _wait_readable ;;
                  s <- _raw_socket self ;; raw_recvfrom_into s buffer size flags
              | _ => raise e
              end).

Fixpoint send (fuel : nat) (self : t) (data : bytes) (flags : Z) : M Z :=
  match fuel with
  | 0 => out_of_fuel
  | S fuel =>
      _check_cancelled ;;
      r <- attempt (s <- _raw_socket self ;; raw_send s data flags) ;;
      match r with
      | inl n => ret n
      | inr BlockingIOError | inr SSLWantWriteError =>
          _wait_writable ;; send fuel self data flags
      | inr SSLWantReadError =>
          _wait_readable ;; send fuel self data flags
      | inr e => raise e
      end
  end.

Definition sendto (self : t) (data : bytes) (addr : address) (flags : Z) : M Z :=
  _check_cancelled ;;
  try_except
    (s <- _raw_socket self ;; raw_sendto s data flags addr)
    (fun e => match e with
              | BlockingIOError =>
                  _wait_writable ;;
                  s <- _raw_socket self ;; raw_sendto s data flags addr
              | _ => raise e
              end).

(** The loop of [sendall]; every round hands the whole of [data] to
    [send] again and subtracts what that call accepted. *)
Fixpoint sendall_loop (fuel : nat) (self : t) (data : bytes) (flags : Z) (to_send : Z)
  : M unit :=
  match fuel with
  | 0 => out_of_fuel
  | S fuel =>
      if (to_send >? 0)%Z then
        _check_cancelled ;;
        r <- attempt (s <- _raw_socket self ;; raw_send s data flags) ;;
        match r with
        | inl sent => sendall_loop fuel self data flags (to_send - sent)
        | inr BlockingIOError | inr SSLWantWriteError =>
            _wait_writable ;; sendall_loop fuel self data flags to_send
        | inr SSLWantReadError =>
            _wait_readable ;; sendall_loop fuel self data flags to_send
        | inr e => raise e
        end
      else ret tt
  end.

Definition sendall (fuel : nat) (self : t) (data : bytes) (flags : Z) : M unit :=
  sendall_loop fuel self data flags (len data).

(** Python's truth value of [server_hostname]. *)
Definition truthy (h : option string) : bool :=
  match h with
  | None => false
  | Some s => negb (String.eqb s "")
  end.

Fixpoint start_tls_loop (fuel : nat) (self : t) (plain_socket : raw_socket) : M unit :=
  match fuel with
  | 0 => out_of_fuel
  | S fuel =>
      r <- attempt (s <- _raw_socket self ;; raw_do_handshake s) ;;
      match r with
      | inl _ => ret tt
      | inr SSLWantReadError => _wait_readable ;; start_tls_loop fuel self plain_socket
      | inr SSLWantWriteError => _wait_writable ;; start_tls_loop fuel self plain_socket
      | inr e => set_raw_socket self plain_socket ;; raise e
      end
  end.

Definition start_tls (fuel : nat) (self : t) (context : ssl_context)
    (server_hostname : option string) : M unit :=
  plain_socket <- _raw_socket self ;;
  wrapped <- wrap_socket context plain_socket (negb (truthy server_hostname))
               server_hostname ;;
  set_raw_socket self wrapped ;;
  start_tls_loop fuel self plain_socket.

(** [self.fileno()], which [__getattr__] hands to the raw socket. *)
Definition fileno (self : t) : M Z :=
  s <- _raw_socket self ;; raw_fileno s.

End BaseSocket.

(** ** class SocketStream *)

(** [x[:i]] with Python's convention for a negative [i]. *)
Definition slice_to (x : bytes) (i : Z) : bytes :=
  if (i <? 0)%Z then take (Z.to_nat (Z.max 0 (len x + i))) x
  else take (Z.to_nat i) x.

(** [bytearray(n)]: [n] zero bytes. *)
Definition bytearray (n : Z) : bytes := replicate (Z.to_nat n) x00.

Module SocketStream.

Record t := Make {
  _socket : BaseSocket.t;
  _ssl_context : option ssl_context;
  _server_hostname : option string
}.

Definition close (self : t) : M unit := BaseSocket.close (_socket self).

Definition receive_some (fuel : nat) (self : t) (max_bytes : Z) : M bytes :=
  BaseSocket.recv fuel (_socket self) max_bytes 0.

(** The loop of [receive_exactly]. [buf] and [view] are one object in the
    source ([view] is a memoryview of [buf]): here [buf] is [mv_buf view],
    so what [recv_into] writes through the view is what [buf[:...]] and
    [bytes(buf)] read. *)
Fixpoint receive_exactly_loop (fuel : nat) (self : t) (view : memoryview) (nbytes : Z)
  : M bytes :=
  match fuel with
  | 0 => out_of_fuel
  | S fuel =>
      if (nbytes >? 0)%Z then
        r <- BaseSocket.recv_into fuel (_socket self) view nbytes 0 ;;
        let bytes_read := fst r in
        let view := snd r in
        if (bytes_read =? 0)%Z then
          let total_bytes_read := (len (mv_buf view) - nbytes)%Z in
          raise (IncompleteRead (slice_to (mv_buf view) total_bytes_read))
        else
          receive_exactly_loop fuel self (mv_slice_from view (Z.to_nat bytes_read))
            (nbytes - bytes_read)
      else ret (mv_buf view)
  end.

Definition receive_exactly (fuel : nat) (self : t) (nbytes : Z) : M bytes :=
  if (nbytes <? 0)%Z then raise ValueError
  else receive_exactly_loop fuel self (MemoryView (bytearray nbytes) 0) nbytes.

(** The loop of [receive_until], with its local variables [offset] and
    [buf] as arguments. *)
Fixpoint receive_until_loop (fuel : nat) (self : t) (delimiter : bytes) (max_size : Z)
    (offset : Z) (buf : bytes) : M bytes :=
  match fuel with
  | 0 => out_of_fuel
  | S fuel =>
      if (len buf <? max_size)%Z then
        let read_size := (max_size - len buf)%Z in
        data <- BaseSocket.recv fuel (_socket self) read_size MSG_PEEK ;;
        match data with
        | [] => raise (IncompleteRead buf)
        | _ :: _ =>
            let buf := buf ++ data in
            let index := find buf delimiter offset in
            if (index >=? 0)%Z then
              BaseSocket.recv fuel (_socket self) (index + len delimiter) 0 ;;
              ret (slice_to buf index)
            else
              BaseSocket.recv fuel (_socket self) (len data) 0 ;;
              receive_until_loop fuel self delimiter max_size
                (offset + (len data - len delimiter + 1)) buf
        end
      else raise (DelimiterNotFound buf)
  end.

Definition receive_until (fuel : nat) (self : t) (delimiter : bytes) (max_size : Z)
  : M bytes :=
  receive_until_loop fuel self delimiter max_size 0 [].

(** One resumption of the [receive_chunks] generator: the body runs up to
    its next [yield_] ([Some data]) or to its end ([None]). *)
Definition receive_chunks_resume (fuel : nat) (self : t) (max_size : Z)
  : M (option bytes) :=
  data <- receive_some fuel self max_size ;;
  match data with
  | [] => ret None
  | _ :: _ => ret (Some data)
  end.

(** One resumption of the [receive_delimited_chunks] generator: a frame
    ([Some chunk]), or its end ([None]) when the stream ends with nothing
    read of the next frame. *)
Definition receive_delimited_chunks_resume (fuel : nat) (self : t) (delimiter : bytes)
    (max_chunk_size : Z) : M (option bytes) :=
  r <- attempt (receive_until fuel self delimiter max_chunk_size) ;;
  match r with
  | inl chunk => ret (Some chunk)
  | inr (IncompleteRead data) =>
      match data with
      | _ :: _ => raise (IncompleteRead data)
      | [] => ret None
      end
  | inr e => raise e
  end.

Definition send_all (fuel : nat) (self : t) (data : bytes) : M unit :=
  BaseSocket.sendall fuel (_socket self) data 0.

Definition start_tls (fuel : nat) (self : t) (context : option ssl_context) : M unit :=
  let ssl_context :=
    match context, _ssl_context self with
    | Some c, _ => c
    | None, Some c => c
    | None, None => DefaultContext
    end in
  BaseSocket.start_tls fuel (_socket self) ssl_context (_server_hostname self).

End SocketStream.

(** Driving an asynchronous generator to its end ([async for]): the items it
    yielded, and how it stopped. *)
Fixpoint drain {A} (fuel : nat) (resume : M (option A)) (w : world)
  : list A * (outcome unit * world) :=
  match fuel with
  | 0 => ([], (OutOfFuel, w))
  | S fuel =>
      match resume w with
      | (Return (Some x), w') =>
          let r := drain fuel resume w' in (x :: fst r, snd r)
      | (Return None, w') => ([], (Return tt, w'))
      | (Raise e, w') => ([], (Raise e, w'))
      | (OutOfFuel, w') => ([], (OutOfFuel, w'))
      end
  end.

(** ** class SocketStreamServer *)

Module SocketStreamServer.

Record t := Make {
  _socket : BaseSocket.t;
  _ssl_context : option ssl_context
}.

Definition close (self : t) : M unit := BaseSocket.close (_socket self).

Definition accept (fuel : nat) (self : t) : M SocketStream.t :=
  r <- BaseSocket.accept (_socket self) ;;
  let sock := fst r in
  try_except
    (let stream := SocketStream.Make sock None None in
     match _ssl_context self with
     | Some ctx => SocketStream.start_tls fuel stream (Some ctx)
     | None => ret tt
     end ;;
     ret stream)
    (fun e => BaseSocket.close sock ;; raise e).

End SocketStreamServer.

(** ** class DatagramSocket *)

Module DatagramSocket.

Record t := Make { _socket : BaseSocket.t }.

Definition close (self : t) : M unit := BaseSocket.close (_socket self).

Definition receive (self : t) (max_bytes : Z) : M (bytes * address) :=
  BaseSocket.recvfrom (_socket self) max_bytes 0.

Definition send (fuel : nat) (self : t) (data : bytes) (address : option host)
    (port : option Z) : M unit :=
  match address, port with
  | Some a, Some p => BaseSocket.sendto (_socket self) data (AddrPair a p) 0 ;; ret tt
  | _, _ => BaseSocket.send fuel (_socket self) data 0 ;; ret tt
  end.

(** One resumption of the [receive_packets] generator. *)
Definition receive_packets_resume (self : t) (max_size : Z)
  : M (option (bytes * address)) :=
  fd <- BaseSocket.fileno (_socket self) ;;
  if (fd =? -1)%Z then ret None
  else
    r <- receive self max_size ;;
    match fst r with
    | _ :: _ => ret (Some r)
    | [] => ret None
    end.

End DatagramSocket.

(** ** Worlds, and the vocabulary of the statements *)

(** A world with one BaseSocket (object 0 over descriptor 0), [ready]
    already received, [pending] still to arrive, and the given scripts. *)
Definition world0 (ready pending : bytes) (sc : list step)
    (ck wt : list (option exn)) : world :=
  World {[ 0 := PlainSocket 0 ]} 1 1 ∅ [] ready pending [] [] 0 sc ck wt [] [].

Definition stream0 : SocketStream.t := SocketStream.Make 0 None None.

(** Everything the stream still holds, received or in flight. *)
Definition rx (w : world) : bytes := rx_ready w ++ rx_pending w.

Definition LF : bytes := [x0a].

(** A calm world: the transport never fails for good and the task is never
    cancelled. The socket layer may still answer "would block", "want read"
    and "want write", and deliver in fragments of any size. *)
Definition benign (s : step) : bool :=
  match s with
  | Xfer _ => true
  | Signal BlockingIOError | Signal SSLWantReadError | Signal SSLWantWriteError => true
  | Signal _ => false
  end.

Definition no_exn (a : option exn) : bool :=
  match a with None => true | Some _ => false end.

Definition calmb (w : world) : bool :=
  forallb benign (script w) && forallb no_exn (checks w) && forallb no_exn (waits w).

Definition calm (w : world) : Prop := calmb w = true.

(** Fields that the scheduler hooks leave alone. *)
Definition same_net (w w' : world) : Prop :=
  rx_ready w' = rx_ready w /\ rx_pending w' = rx_pending w /\ script w' = script w
  /\ wire w' = wire w /\ store w' = store w /\ closed w' = closed w.

(** A read of up to [n] bytes went through when [j] bytes of the stream
    had arrived. *)
Definition delivered (w : world) (n : nat) (peek : bool) (data : bytes) (w' : world)
  : Prop :=
  exists j,
    length (rx_ready w) <= j <= length (rx w)
    /\ (rx w <> [] -> 0 < j)
    /\ data = take n (take j (rx w))
    /\ rx_ready w' = (if peek then take j (rx w) else drop n (take j (rx w)))
    /\ rx_pending w' = drop j (rx w)
    /\ calm w'
    /\ length (script w') <= length (script w)
    /\ wire w' = wire w.

(** The call did not go through; nothing was lost and the script advanced. *)
Definition retried (w w' : world) : Prop :=
  rx w' = rx w
  /\ length (rx_ready w) <= length (rx_ready w')
  /\ calm w'
  /\ length (script w') < length (script w)
  /\ wire w' = wire w.

Definition retry_signal (e : exn) : Prop :=
  e = BlockingIOError \/ e = SSLWantReadError \/ e = SSLWantWriteError.

(** [preserves R c]: whatever [c] does, the world it leaves is [R]-related
    to the one it started from. *)
Definition preserves (R : relation world) {A} (c : M A) : Prop :=
  forall w, R w (snd (c w)).

(** The log of [w'] is the log of [w] followed by events that satisfy [P]. *)
Definition log_ext (P : event -> Prop) : relation world :=
  fun w w' => exists evs, log w' = log w ++ evs /\ Forall P evs.

Abbreviation emits P c := (preserves (log_ext P) c).

Definition any_event (ev : event) : Prop := True.

Definition is_sendto (ev : event) : Prop :=
  exists s d f a, ev = EvRaw s (CallSendto d f a).

(** The script is only consumed. *)
Definition script_le : relation world :=
  fun w w' => length (script w') <= length (script w).

(** The world after a check that found the task cancelled: the check is
    logged and its answer used up; nothing else has changed. *)
Definition after_check (w : world) : world :=
  set_checks (fun l => snd (pop_answer l)) (set_log (fun l => l ++ [EvCheckCancelled]) w).

(** [c] starts by asking the scheduler, and stops there when the task is
    cancelled. *)
Definition checked_first {A} (c : M A) : Prop :=
  forall w,
    (exists evs, log (snd (c w)) = log w ++ EvCheckCancelled :: evs)
    /\ (forall e rest, checks w = Some e :: rest -> c w = (Raise e, after_check w)).

(** The last thing that happened was a wait on the scheduler. *)
Definition ended_waiting (w : world) : Prop :=
  last (log w) = Some EvWaitReadable \/ last (log w) = Some EvWaitWritable.

(** [successive c w l w']: calling [c] again and again from [w] returns the
    items of [l], one per call, and leaves [w']. *)
Inductive successive {A} (c : M A) : world -> list A -> world -> Prop :=
| successive_nil w : successive c w [] w
| successive_cons w a w1 l w' :
    c w = (Return a, w1) -> successive c w1 l w' -> successive c w (a :: l) w'.

(** *** Worlds of the examples *)

Definition w_C5 : world :=
  world0 (b "ab") (b "cdefg") [Xfer 0; Signal SSLWantReadError; Xfer 1; Xfer 0; Xfer 9] [] [].

Definition w_C7 : world :=
  world0 (b "ab") (b "cdefgh") [Xfer 1; Signal SSLWantReadError; Xfer 0; Xfer 2] [] [].

Definition w_C10 : world := world0 [] [] [Signal BlockingIOError; Xfer 9] [] [].

Definition w_hello : world :=
  world0 (b "hello" ++ LF ++ b "world") [] [Signal SSLWantReadError; Xfer 0] [] [].

(** Two short writes of one byte each. *)
Definition w_short_writes : world := world0 [] [] [Xfer 1; Xfer 1] [] [].

(** "ab" is there, "c", the delimiter and "XYZ" arrive before the second
    peek. *)
Definition w_two_peeks : world :=
  world0 (b "ab") (b "c" ++ LF ++ b "XYZ") [Xfer 0; Xfer 0; Xfer 9] [] [].

(** "abc" arrives as "a", then "bc". *)
Definition w_split_delimiter : world :=
  world0 [] (b "abc") [Xfer 1; Xfer 0; Xfer 2; Xfer 0] [] [].

(** The wrap goes through, the handshake wants to read, and the wait is
    cancelled. *)
Definition w_cancel_in_handshake : world :=
  world0 [] [] [Xfer 0; Signal SSLWantReadError] [] [Some CancelledError].

(** The task is already cancelled. *)
Definition w_cancelled : world := world0 [] [] [] [Some CancelledError] [].

Definition listener : SocketStreamServer.t := SocketStreamServer.Make 0 (Some (Context 1)).

Definition peer : address := AddrPair (IPLiteral "10.0.0.7") 4242.

(** A listening socket with one peer waiting; the accept and the wrap go
    through, the handshake fails. *)
Definition w_bad_handshake : world :=
  World {[ 0 := PlainSocket 0 ]} 1 1 ∅ [peer] [] [] [] [] 0
        [Xfer 0; Xfer 0; Signal (SSLError 1)] [] [] [] [].

(** *** More vocabulary *)

(** The next check finds the task not cancelled. *)
Definition not_cancelled (w : world) : Prop := fst (pop_answer (checks w)) = None.

(** The next wait on the scheduler is granted. *)
Definition wait_granted (w : world) : Prop := fst (pop_answer (waits w)) = None.

(** The next answer of the socket layer lets the call through. *)
Definition goes_through (w : world) : Prop :=
  match script w with Signal _ :: _ => False | _ => True end.

(** One [send] on the raw socket went through with [n] bytes. *)
Definition sent (data : bytes) (w : world) (n : nat) (w' : world) : Prop :=
  n <= length data
  /\ (data <> [] -> 0 < n)
  /\ n = match script w with
         | Xfer k :: _ => Nat.min k (length data)
         | _ => length data
         end
  /\ wire w' = wire w ++ take n data
  /\ rx_ready w' = rx_ready w /\ rx_pending w' = rx_pending w
  /\ script w' = tail (script w)
  /\ calm w'.

(** No answer of the socket layer is a short write of [data]. *)
Definition full_writes (data : bytes) (w : world) : bool :=
  forallb (fun s => match s with
                    | Xfer k => (k =? 0) || (length data <=? k)
                    | Signal _ => true
                    end) (script w).

(** The detached handles stay as they are. *)
Definition same_detached : relation world := fun w w' => detached w' = detached w.

(** *** More worlds *)

(** "ab" is there, "cdef" arrives later; the first call goes through, the
    second would block. *)
Definition w_fragments : world :=
  world0 (b "ab") (b "cdef") [Xfer 0; Signal BlockingIOError; Xfer 1] [] [].

(** The kernel has no room, then wants to read, then takes two bytes. *)
Definition w_slow_writer : world :=
  world0 [] [] [Xfer 0; Signal SSLWantReadError; Xfer 2] [] [].

(** The kernel stalls a few times and then takes everything. *)
Definition w_full_writer : world :=
  world0 [] [] [Signal BlockingIOError; Xfer 0; Signal SSLWantReadError; Xfer 7] [] [].

(** The socket layer answers "would block" twice. *)
Definition w_busy : world :=
  world0 [] [] [Signal BlockingIOError; Signal BlockingIOError] [] [].

(** The connection is in progress and then refused (error 111). *)
Definition w_refused : world :=
  World {[ 0 := PlainSocket 0 ]} 1 1 ∅ [] [] [] [] [] 111
        [Signal BlockingIOError] [] [] [] [].

(** The network is unreachable (error 101) at once. *)
Definition w_unreachable : world := world0 [] [] [Signal (OSError 101)] [] [].

(** A listener without TLS. *)
Definition plain_listener : SocketStreamServer.t := SocketStreamServer.Make 0 None.

(** The wrap goes through, the handshake wants to read once and then
    completes. *)
Definition w_handshake : world :=
  world0 [] [] [Xfer 0; Signal SSLWantReadError; Xfer 0] [] [].

(** A peer is waiting; the wrap of the accepted socket is refused. *)
Definition w_wrap_refused : world :=
  World {[ 0 := PlainSocket 0 ]} 1 1 ∅ [peer] [] [] [] [] 0
        [Xfer 0; Signal ValueError] [] [] [] [].

(** A peer is waiting; the handshake wants to read and the wait is
    cancelled. *)
Definition w_cancelled_handshake : world :=
  World {[ 0 := PlainSocket 0 ]} 1 1 ∅ [peer] [] [] [] [] 0
        [Xfer 0; Xfer 0; Signal SSLWantReadError] [] [Some CancelledError] [] [].

(** "a", LF, "b", LF and the end of the stream. *)
Definition w_two_frames : world := world0 (b "a" ++ LF ++ b "b" ++ LF) [] [] [] [].

(** "a", LF, then "b" and the end of the stream: the second frame is cut. *)
Definition w_cut_frame : world := world0 (b "a" ++ LF ++ b "b") [] [] [] [].

(** Three datagrams are queued, the second one empty. *)
Definition w_datagrams : world :=
  World {[ 0 := PlainSocket 0 ]} 1 1 ∅ [] [] [] []
        [(b "a", peer); ([], peer); (b "b", peer)] 0 [] [] [] [] [].

(** A datagram is queued on a socket that has been closed. *)
Definition w_closed_datagram : world :=
  World {[ 0 := PlainSocket 0 ]} 1 1 {[ 0 ]} [] [] [] [] [(b "a", peer)] 0 [] [] [] [] [].

(** * Properties *)

(** ** Searching *)

Lemma byte_eqb_eq x y : Byte.eqb x y = true <-> x = y.
Proof. split; [apply Byte.byte_dec_bl|apply Byte.byte_dec_lb]. Qed.

Lemma starts_with_spec sub buf :
  starts_with sub buf = true <-> exists post, buf = sub ++ post.
Proof.
  revert buf. induction sub as [|x sub IH]; intros buf; simpl.
  - split; [by exists buf|done].
  - destruct buf as [|y buf].
    + split; [done|]. by intros [post ?].
    + rewrite andb_true_iff, byte_eqb_eq, IH. split.
      * intros [-> [post ->]]. by exists post.
      * intros [post [= -> ->]]. split; [done|]. by exists post.
Qed.

Lemma starts_with_app sub buf x :
  starts_with sub buf = true -> starts_with sub (buf ++ x) = true.
Proof.
  rewrite !starts_with_spec. intros [post ->]. exists (post ++ x). by rewrite app_assoc.
Qed.

Lemma starts_with_take sub buf n :
  starts_with sub buf = true -> length sub <= n -> starts_with sub (take n buf) = true.
Proof.
  rewrite !starts_with_spec. intros [post ->] Hn. exists (take (n - length sub) post).
  rewrite take_app. f_equal. apply take_ge. lia.
Qed.

Lemma starts_with_length sub buf :
  starts_with sub buf = true -> length sub <= length buf.
Proof. rewrite starts_with_spec. intros [post ->]. rewrite length_app. lia. Qed.

Lemma search_Some sub buf i :
  search sub buf = Some i <->
  i <= length buf /\ starts_with sub (drop i buf) = true
  /\ forall j, j < i -> starts_with sub (drop j buf) = false.
Proof.
  revert i. induction buf as [|y buf IH]; intros i; simpl.
  - destruct (starts_with sub []) eqn:E.
    + split.
      * intros [= <-]. rewrite drop_0. split_and!; [done|done|lia].
      * intros (Hi & _ & _). simpl in Hi. f_equal. lia.
    + split; [done|]. intros (Hi & Hs & _). rewrite drop_nil in Hs. congruence.
  - destruct (starts_with sub (y :: buf)) eqn:E.
    + split.
      * intros [= <-]. simpl. split_and!; [lia|done|lia].
      * intros (Hi & Hs & Hmin). destruct i; [done|].
        specialize (Hmin 0 ltac:(lia)). simpl in Hmin. congruence.
    + destruct (search sub buf) as [k|] eqn:Es; simpl.
      * split.
        -- intros [= <-]. destruct (proj1 (IH k) eq_refl) as (Hk & Hs & Hmin). simpl.
           split_and!; [lia|done|]. intros [|j] Hj; [done|]. apply Hmin. lia.
        -- intros (Hi & Hs & Hmin). destruct i as [|i]; [simpl in Hs; congruence|].
           f_equal. f_equal.
           assert (Some k = Some i) as [= ->]; [|done].
           apply IH. simpl in *.
           split_and!; [lia|done|]. intros j Hj. apply (Hmin (S j)). lia.
      * split; [done|]. intros (Hi & Hs & Hmin).
        destruct i as [|i]; [simpl in Hs; congruence|].
        assert (None = Some i); [|congruence].
        apply IH. simpl in *. split_and!; [lia|done|].
        intros j Hj. apply (Hmin (S j)). lia.
Qed.

Lemma search_None sub buf :
  search sub buf = None <->
  forall i, i <= length buf -> starts_with sub (drop i buf) = false.
Proof.
  induction buf as [|y buf IH]; simpl.
  - destruct (starts_with sub []) eqn:E.
    + split; [done|]. intros H. specialize (H 0 ltac:(lia)). simpl in H. congruence.
    + split; [|done]. intros _ i _. by rewrite drop_nil.
  - destruct (starts_with sub (y :: buf)) eqn:E.
    + split; [done|]. intros H. specialize (H 0 ltac:(lia)). simpl in H. congruence.
    + destruct (search sub buf) as [k|] eqn:Es; simpl.
      * split; [done|]. intros H. exfalso.
        assert (Some k = None); [|done]. apply IH.
        intros i Hi. apply (H (S i)). lia.
      * split; [|done]. intros _ [|i] Hi; [done|]. simpl.
        apply (proj1 IH eq_refl). lia.
Qed.

(** [find] answers -1 or the position of an occurrence. *)
Lemma find_spec buf sub start :
  find buf sub start = (-1)%Z
  \/ exists i, find buf sub start = Z.of_nat i
       /\ i + length sub <= length buf
       /\ starts_with sub (drop i buf) = true.
Proof.
  unfold find.
  set (s := if (start <? 0)%Z then Z.max 0 (start + len buf) else start).
  destruct (Z.gtb_spec s (len buf)) as [Hgt|Hle]; [by left|].
  destruct (search sub (drop (Z.to_nat s) buf)) as [i|] eqn:E; [|by left].
  right. apply search_Some in E as (Hi & Hs & _).
  assert (0 <= s)%Z.
  { unfold s. destruct (Z.ltb_spec start 0); lia. }
  exists (Z.to_nat s + i). rewrite drop_drop in Hs.
  split; [lia|]. split; [|done].
  apply starts_with_length in Hs. rewrite length_drop in Hs.
  rewrite length_drop in Hi. unfold len in Hle. lia.
Qed.

Lemma find_not_found buf sub start :
  search sub buf = None -> find buf sub start = (-1)%Z.
Proof.
  intros Hn. destruct (find_spec buf sub start) as [?|(i & _ & Hi & Hs)]; [done|].
  rewrite (proj1 (search_None sub buf) Hn i) in Hs; [done|lia].
Qed.

Lemma find_first buf sub i :
  search sub buf = Some i -> find buf sub 0 = Z.of_nat i.
Proof.
  intros E. unfold find. simpl.
  destruct (Z.gtb_spec 0 (len buf)); [unfold len in *; lia|].
  by rewrite drop_0, E.
Qed.

(** An occurrence inside a prefix is an occurrence in the whole. *)
Lemma search_prefix_None sub buf n :
  search sub (take n buf) = None ->
  forall i, i + length sub <= n -> i + length sub <= length buf ->
  starts_with sub (drop i buf) = false.
Proof.
  intros Hn i Hi Hl.
  destruct (starts_with sub (drop i buf)) eqn:E; [|done].
  rewrite <- (proj1 (search_None _ _) Hn i).
  2:{ rewrite length_take. lia. }
  symmetry. replace n with (i + (n - i)) by lia.
  rewrite <- take_drop_commute. apply starts_with_take; [done|lia].
Qed.

(** The first occurrence does not move when bytes are appended. *)
Lemma search_app sub buf x i :
  search sub buf = Some i -> search sub (buf ++ x) = Some i.
Proof.
  intros (Hi & Hs & Hmin)%search_Some. apply search_Some.
  pose proof (starts_with_length _ _ Hs) as Hl. rewrite length_drop in Hl.
  split; [rewrite length_app; lia|].
  split.
  - rewrite drop_app_le by lia. by apply starts_with_app.
  - intros j Hj. destruct (starts_with sub (drop j (buf ++ x))) eqn:E; [|done].
    rewrite drop_app_le in E by lia.
    apply (starts_with_take _ _ (length buf - j)) in E; [|lia].
    rewrite take_app_length' in E by (rewrite length_drop; lia).
    rewrite (Hmin j Hj) in E. done.
Qed.

(** ** The monad on calm worlds *)

Lemma calm_parts w :
  calm w <-> forallb benign (script w) = true /\ forallb no_exn (checks w) = true
             /\ forallb no_exn (waits w) = true.
Proof.
  unfold calm, calmb. rewrite !andb_true_iff. tauto.
Qed.

Lemma bnd_Return {A B} (c : M A) (k : A -> M B) w a w' :
  c w = (Return a, w') -> bnd c k w = k a w'.
Proof. unfold bnd. by intros ->. Qed.

Lemma bnd_Raise {A B} (c : M A) (k : A -> M B) w e w' :
  c w = (Raise e, w') -> bnd c k w = (Raise e, w').
Proof. unfold bnd. by intros ->. Qed.

Lemma bnd_OutOfFuel {A B} (c : M A) (k : A -> M B) w w' :
  c w = (OutOfFuel, w') -> bnd c k w = (OutOfFuel, w').
Proof. unfold bnd. by intros ->. Qed.

Lemma pop_answer_calm l :
  forallb no_exn l = true ->
  fst (pop_answer l) = None /\ forallb no_exn (snd (pop_answer l)) = true.
Proof.
  destruct l as [|[e|] l]; simpl; intros H; try discriminate; auto.
Qed.

Lemma check_calm w :
  calm w -> exists w', _check_cancelled w = (Return tt, w') /\ calm w' /\ same_net w w'.
Proof.
  intros (Hs & Hc & Hw)%calm_parts.
  destruct (pop_answer_calm _ Hc) as [E1 E2].
  unfold _check_cancelled, emit, modify, get, bnd. simpl. rewrite E1.
  eexists. split; [reflexivity|]. split.
  - apply calm_parts. simpl. auto.
  - repeat split.
Qed.

Lemma wait_calm ev w :
  calm w -> exists w', wait_on ev w = (Return tt, w') /\ calm w' /\ same_net w w'.
Proof.
  intros (Hs & Hc & Hw)%calm_parts.
  destruct (pop_answer_calm _ Hw) as [E1 E2].
  unfold wait_on, emit, modify, get, bnd. simpl. rewrite E1.
  eexists. split; [reflexivity|]. split.
  - apply calm_parts. simpl. auto.
  - repeat split.
Qed.

(** ** Receiving on a calm world *)

Lemma take_split {A} (l : list A) a n :
  a <= n -> take n l = take a l ++ take (n - a) (drop a l).
Proof.
  revert a n. induction l as [|x l IH]; intros a n H.
  - by rewrite drop_nil, !take_nil.
  - destruct a, n; simpl; try done; try lia. f_equal. apply IH. lia.
Qed.

Lemma take_app_min {A} (r p : list A) k :
  take (length r + Nat.min k (length p)) (r ++ p) = r ++ take k p.
Proof.
  rewrite take_app_add'; [|done]. f_equal.
  destruct (Nat.min_spec k (length p)) as [[? ->]|[? ->]]; [done|].
  by rewrite !take_ge by lia.
Qed.

Lemma drop_app_min {A} (r p : list A) k :
  drop (length r + Nat.min k (length p)) (r ++ p) = drop k p.
Proof.
  rewrite drop_app_add'; [|done].
  destruct (Nat.min_spec k (length p)) as [[? ->]|[? ->]]; [done|].
  by rewrite !drop_ge by lia.
Qed.

Lemma take_rx_spec n peek w :
  calm w ->
  (rx_ready w = [] /\ rx_pending w <> []
   /\ take_rx n peek w = (Raise BlockingIOError, w))
  \/ ((rx_ready w <> [] \/ rx_pending w = [])
      /\ exists w', take_rx n peek w = (Return (take n (rx_ready w)), w')
         /\ rx_ready w' = (if peek then rx_ready w else drop n (rx_ready w))
         /\ rx_pending w' = rx_pending w /\ calm w'
         /\ script w' = script w /\ wire w' = wire w).
Proof.
  intros Hc. destruct w as [st no nf cl bl ready pending wi pk so sc ck wt lg dt].
  unfold take_rx, bnd, get, modify, ret, raise. simpl.
  destruct ready as [|x ready]; [destruct pending as [|y pending]|].
  - right. split; [by right|]. destruct peek; simpl; eexists; repeat split; done.
  - left. done.
  - right. split; [by left|]. destruct peek; simpl; eexists; repeat split; done.
Qed.

Lemma arrive_spec k w :
  calm w ->
  exists w', arrive k w = (Return tt, w')
    /\ rx_ready w' = rx_ready w ++ match k with Some k => take k (rx_pending w)
                                     | None => rx_pending w end
    /\ rx_pending w' = match k with Some k => drop k (rx_pending w) | None => [] end
    /\ calm w' /\ script w' = script w /\ wire w' = wire w.
Proof.
  intros Hc. destruct w as [st no nf cl bl ready pending wi pk so sc ck wt lg dt].
  unfold arrive, modify, set_rx. destruct k; simpl; eexists; repeat split; done.
Qed.

Lemma next_step_spec w :
  calm w ->
  exists w', next_step w = (Return (head (script w)), w')
    /\ rx_ready w' = rx_ready w /\ rx_pending w' = rx_pending w
    /\ calm w' /\ script w' = tail (script w) /\ wire w' = wire w.
Proof.
  intros Hc. pose proof Hc as (Hs & Hck & Hw)%calm_parts.
  destruct w as [st no nf cl bl ready pending wi pk so sc ck wt lg dt].
  unfold next_step, bnd, get, modify, ret. simpl in *.
  destruct sc as [|s sc]; simpl; eexists.
  - split; [reflexivity|]. repeat split; try done.
  - split; [reflexivity|]. repeat split; try done.
  apply calm_parts; simpl. apply andb_true_iff in Hs as [_ Hs]. auto.
Qed.

Lemma rx_call_calm n peek w :
  calm w ->
  (exists e w', rx_call n peek w = (Raise e, w') /\ retry_signal e /\ retried w w')
  \/ (exists data w', rx_call n peek w = (Return data, w') /\ delivered w n peek data w').
Proof.
  intros Hc. pose proof Hc as (Hs & Hck & Hw)%calm_parts.
  destruct (next_step_spec w Hc) as (w1 & E1 & Hr1 & Hp1 & Hc1 & Hs1 & Hw1).
  unfold rx_call. rewrite (bnd_Return _ _ _ _ _ E1).
  assert (Hlen : script w <> [] -> length (script w1) < length (script w)).
  { rewrite Hs1. destruct (script w); simpl; [done|lia]. }
  assert (Hlen' : length (script w1) <= length (script w)).
  { rewrite Hs1. destruct (script w); simpl; lia. }
  destruct (script w) as [|[k|e] sc] eqn:Hsc; simpl.
  - (* the script is used up: everything arrives *)
    destruct (arrive_spec None w1 Hc1) as (w2 & E2 & Hr2 & Hp2 & Hc2 & Hs2 & Hw2).
    rewrite (bnd_Return _ _ _ _ _ E2).
    destruct (take_rx_spec n peek w2 Hc2)
      as [(_ & Hne & _)|(_ & w3 & E3 & Hr3 & Hp3 & Hc3 & Hs3 & Hw3)]; [congruence|].
    right. exists (take n (rx_ready w2)), w3. split; [done|].
    exists (length (rx w)). unfold rx in *.
    rewrite Hr3, Hp3, Hr2, Hp2, Hr1, Hp1, firstn_all, drop_all, Hs3, Hs2, Hw3, Hw2, Hw1.
    repeat split; try done; try lia.
    + rewrite length_app. lia.
    + intros. destruct (rx_ready w ++ rx_pending w); simpl; [done|lia].
    + by rewrite Hsc.
  - (* k more bytes arrive *)
    destruct (arrive_spec (Some k) w1 Hc1) as (w2 & E2 & Hr2 & Hp2 & Hc2 & Hs2 & Hw2).
    rewrite (bnd_Return _ _ _ _ _ E2).
    destruct (take_rx_spec n peek w2 Hc2)
      as [(Hr & Hne & E3)|(Hne & w3 & E3 & Hr3 & Hp3 & Hc3 & Hs3 & Hw3)].
    + left. exists BlockingIOError, w2. split; [done|]. split; [by left|].
      unfold retried, rx. rewrite Hr2, Hp2, Hr1, Hp1, <- app_assoc, take_drop.
      rewrite Hs2, Hw2, Hw1. repeat split; try done.
      * rewrite length_app. lia.
      * rewrite Hsc. apply Hlen. done.
    + right. exists (take n (rx_ready w2)), w3. split; [done|].
      exists (length (rx_ready w) + Nat.min k (length (rx_pending w))). unfold rx.
      rewrite take_app_min, drop_app_min, Hr3, Hp3, Hr2, Hp2, Hr1, Hp1, Hs3, Hs2, Hw3, Hw2, Hw1.
      rewrite ?Hsc. repeat split; try done; try lia.
      * rewrite length_app. lia.
      * intros Hnil. rewrite Hr2, Hp2, Hr1, Hp1 in Hne.
        destruct (rx_ready w) as [|x r]; simpl; [|lia].
        destruct (rx_pending w) as [|y p]; simpl in *; [done|].
        destruct k; simpl in *; [|lia]. destruct Hne; done.
  - (* the call raises a retry signal *)
    left. exists e, w1. split; [done|].
    simpl in Hs. apply andb_true_iff in Hs as [He _].
    split; [destruct e; try discriminate; unfold retry_signal; auto|].
    unfold retried, rx. rewrite Hr1, Hp1, Hw1, Hsc. repeat split; try done.
    apply Hlen. done.
Qed.

Lemma emit_calm ev w :
  calm w -> exists w', emit ev w = (Return tt, w') /\ calm w' /\ same_net w w'.
Proof.
  intros Hc. unfold emit, modify. eexists. split; [reflexivity|].
  split; [|repeat split]. destruct w; exact Hc.
Qed.

Lemma same_net_rx w w' : same_net w w' -> rx w' = rx w.
Proof. unfold rx. intros (-> & -> & _). done. Qed.

Lemma same_net_trans w1 w2 w3 : same_net w1 w2 -> same_net w2 w3 -> same_net w1 w3.
Proof. unfold same_net. intuition congruence. Qed.

Lemma delivered_pre w0 w n peek data w' :
  same_net w0 w -> delivered w n peek data w' -> delivered w0 n peek data w'.
Proof.
  intros Hn (j & H). exists j. rewrite (same_net_rx _ _ Hn) in H.
  destruct Hn as (<- & _ & <- & <- & _). exact H.
Qed.

Lemma retried_pre w0 w w' : same_net w0 w -> retried w w' -> retried w0 w'.
Proof.
  intros Hn H. unfold retried in *. rewrite (same_net_rx _ _ Hn) in H.
  destruct Hn as (<- & _ & <- & <- & _). exact H.
Qed.

Lemma retried_post w w1 w' : retried w w1 -> same_net w1 w' -> calm w' -> retried w w'.
Proof.
  intros (H1 & H2 & H3 & H4 & H5) Hn Hc. unfold retried.
  rewrite (same_net_rx _ _ Hn). destruct Hn as (-> & _ & -> & -> & _). done.
Qed.

Lemma retried_delivered w w1 n peek data w' :
  retried w w1 -> delivered w1 n peek data w' -> delivered w n peek data w'.
Proof.
  intros (H1 & H2 & H3 & H4 & H5) (j & Hj & Hpos & Hd & Hr & Hp & Hc & Hs & Hw).
  exists j. rewrite H1 in *. repeat split; try done; try lia. congruence.
Qed.

Lemma attempt_eq {A} (c : M A) w :
  attempt c w = match c w with
                | (Return a, w') => (Return (inl a), w')
                | (Raise e, w') => (Return (inr e), w')
                | (OutOfFuel, w') => (OutOfFuel, w')
                end.
Proof.
  unfold attempt, try_except, bnd, ret. by destruct (c w) as [[a|e|] w'].
Qed.

Lemma raw_recv_calm self size flags w :
  calm w -> (0 <= size)%Z ->
  let c := s <- BaseSocket._raw_socket self ;; raw_recv s size flags in
  (exists e w', c w = (Raise e, w') /\ retry_signal e /\ retried w w')
  \/ (exists data w', c w = (Return data, w')
        /\ delivered w (Z.to_nat size) (is_peek flags) data w').
Proof.
  intros Hc Hsize c.
  destruct (emit_calm (EvRaw (BaseSocket.raw_of self w) (CallRecv size flags)) w Hc)
    as (w1 & E1 & Hc1 & Hn1).
  assert (Heq : c w = rx_call (Z.to_nat size) (is_peek flags) w1).
  { subst c. unfold BaseSocket._raw_socket, get, raw_recv, bnd, ret. rewrite E1.
    by destruct (Z.ltb_spec size 0); [lia|]. }
  rewrite Heq.
  destruct (rx_call_calm (Z.to_nat size) (is_peek flags) w1 Hc1)
    as [(e & w' & E & He & Hr)|(data & w' & E & Hd)].
  - left. exists e, w'. split; [exact E|]. split; [exact He|]. by eapply retried_pre.
  - right. exists data, w'. split; [exact E|]. by eapply delivered_pre.
Qed.

Lemma recv_calm fuel self size flags w :
  calm w -> (0 <= size)%Z -> length (script w) < fuel ->
  exists data w',
    BaseSocket.recv fuel self size flags w = (Return data, w')
    /\ delivered w (Z.to_nat size) (is_peek flags) data w'.
Proof.
  revert w. induction fuel as [|fuel IH]; intros w Hc Hsize Hfuel; [lia|].
  simpl.
  destruct (check_calm w Hc) as (w1 & E1 & Hc1 & Hn1).
  rewrite (bnd_Return _ _ _ _ _ E1).
  unfold bnd at 1. rewrite attempt_eq.
  destruct (raw_recv_calm self size flags w1 Hc1 Hsize)
    as [(e & w2 & E & He & Hr)|(data & w2 & E & Hd)]; rewrite E.
  - assert (Hr' : retried w w2) by eauto using retried_pre.
    assert (Hw : forall ev, exists data w',
      (wait_on ev ;; BaseSocket.recv fuel self size flags) w2 = (Return data, w')
      /\ delivered w (Z.to_nat size) (is_peek flags) data w').
    { intros ev. destruct Hr as (_ & _ & Hc2 & Hlt & _).
      destruct (wait_calm ev w2 Hc2) as (w3 & E3 & Hc3 & Hn3).
      rewrite (bnd_Return _ _ _ _ _ E3).
      destruct (IH w3 Hc3 Hsize) as (data & w' & E' & Hd').
      { destruct Hn1 as (_ & _ & Hs1 & _). destruct Hn3 as (_ & _ & Hs3 & _).
        rewrite Hs3. rewrite Hs1 in Hlt. lia. }
      exists data, w'. split; [done|].
      eapply retried_delivered; [|exact Hd']. eapply retried_post; eauto. }
    destruct He as [->|[->| ->]]; apply Hw.
  - exists data, w2. split; [done|]. eauto using delivered_pre.
Qed.

Lemma raw_recv_into_calm self buffer nbytes flags w :
  calm w -> (0 <= nbytes <= Z.of_nat (mv_len buffer))%Z ->
  let c := s <- BaseSocket._raw_socket self ;; raw_recv_into s buffer nbytes flags in
  let n := if (nbytes =? 0)%Z then mv_len buffer else Z.to_nat nbytes in
  (exists e w', c w = (Raise e, w') /\ retry_signal e /\ retried w w')
  \/ (exists data w', c w = (Return (len data, mv_write buffer data), w')
        /\ delivered w n (is_peek flags) data w').
Proof.
  intros Hc Hsize c n.
  destruct (emit_calm (EvRaw (BaseSocket.raw_of self w) (CallRecvInto nbytes flags)) w Hc)
    as (w1 & E1 & Hc1 & Hn1).
  assert (Heq : c w = (data <- rx_call n (is_peek flags) ;;
                       ret (len data, mv_write buffer data)) w1).
  { subst c. unfold BaseSocket._raw_socket, get, raw_recv_into. unfold bnd at 1 2 3.
    unfold ret at 1. rewrite E1.
    destruct (Z.ltb_spec nbytes 0); [lia|].
    by destruct (Z.ltb_spec (Z.of_nat (mv_len buffer)) nbytes); [lia|]. }
  rewrite Heq.
  destruct (rx_call_calm n (is_peek flags) w1 Hc1)
    as [(e & w' & E & He & Hr)|(data & w' & E & Hd)].
  - left. exists e, w'. split; [by rewrite (bnd_Raise _ _ _ _ _ E)|].
    split; [exact He|]. by eapply retried_pre.
  - right. exists data, w'. split; [by rewrite (bnd_Return _ _ _ _ _ E)|].
    by eapply delivered_pre.
Qed.

Lemma recv_into_calm fuel self buffer nbytes flags w :
  calm w -> (0 <= nbytes <= Z.of_nat (mv_len buffer))%Z -> length (script w) < fuel ->
  exists data w',
    BaseSocket.recv_into fuel self buffer nbytes flags w
      = (Return (len data, mv_write buffer data), w')
    /\ delivered w (if (nbytes =? 0)%Z then mv_len buffer else Z.to_nat nbytes)
         (is_peek flags) data w'.
Proof.
  revert w. induction fuel as [|fuel IH]; intros w Hc Hsize Hfuel; [lia|].
  simpl.
  destruct (check_calm w Hc) as (w1 & E1 & Hc1 & Hn1).
  rewrite (bnd_Return _ _ _ _ _ E1).
  unfold bnd at 1. rewrite attempt_eq.
  destruct (raw_recv_into_calm self buffer nbytes flags w1 Hc1 Hsize)
    as [(e & w2 & E & He & Hr)|(data & w2 & E & Hd)]; rewrite E.
  - assert (Hr' : retried w w2) by eauto using retried_pre.
    assert (Hw : forall ev, exists data w',
      (wait_on ev ;; BaseSocket.recv_into fuel self buffer nbytes flags) w2
        = (Return (len data, mv_write buffer data), w')
      /\ delivered w (if (nbytes =? 0)%Z then mv_len buffer else Z.to_nat nbytes)
           (is_peek flags) data w').
    { intros ev. destruct Hr as (_ & _ & Hc2 & Hlt & _).
      destruct (wait_calm ev w2 Hc2) as (w3 & E3 & Hc3 & Hn3).
      rewrite (bnd_Return _ _ _ _ _ E3).
      destruct (IH w3 Hc3 Hsize) as (data & w' & E' & Hd').
      { destruct Hn1 as (_ & _ & Hs1 & _). destruct Hn3 as (_ & _ & Hs3 & _).
        rewrite Hs3. rewrite Hs1 in Hlt. lia. }
      exists data, w'. split; [done|].
      eapply retried_delivered; [|exact Hd']. eapply retried_post; eauto. }
    destruct He as [->|[->| ->]]; apply Hw.
  - exists data, w2. split; [done|]. eauto using delivered_pre.
Qed.

(** What a caller can rely on after a read on a calm world. *)
Lemma delivered_facts w n peek data w' :
  delivered w n peek data w' ->
  data = take (length data) (rx w)
  /\ rx w' = (if peek then rx w else drop (length data) (rx w))
  /\ length data <= n
  /\ Nat.min n (length (rx_ready w)) <= length data
  /\ (peek = true -> length data <= length (rx_ready w'))
  /\ (0 < n -> rx w <> [] -> data <> [])
  /\ calm w' /\ length (script w') <= length (script w) /\ wire w' = wire w.
Proof.
  intros (j & Hj & Hpos & -> & Hr & Hp & Hc & Hs & Hw).
  assert (Hlen : length (take n (take j (rx w))) = Nat.min n j).
  { rewrite !length_take. lia. }
  rewrite Hlen. repeat split; try done; try lia.
  - rewrite take_take. f_equal.
  - unfold rx at 1. rewrite Hr, Hp. destruct peek; [apply take_drop|].
    destruct (Nat.le_gt_cases n j).
    + rewrite Nat.min_l by lia.
      rewrite <- (take_drop j (rx w)) at 3.
      rewrite drop_app_le; [done|]. rewrite length_take. lia.
    + rewrite Nat.min_r by lia. rewrite drop_ge; [done|]. rewrite length_take. lia.
  - intros ->. rewrite Hr, length_take. lia.
  - intros Hn Hne E. apply (f_equal length) in E. rewrite Hlen in E. simpl in E.
    specialize (Hpos Hne). lia.
Qed.

(** ** receive_exactly *)

Lemma receive_exactly_loop_calm fuel self got pad nbytes w :
  calm w ->
  length pad = nbytes ->
  nbytes + length (script w) < fuel ->
  exists w',
    calm w'
    /\ SocketStream.receive_exactly_loop fuel self
         (MemoryView (got ++ pad) (length got)) (Z.of_nat nbytes) w
       = (if decide (nbytes <= length (rx w))
          then Return (got ++ take nbytes (rx w))
          else Raise (IncompleteRead (got ++ rx w)), w')
    /\ (nbytes <= length (rx w) -> rx w' = drop nbytes (rx w)).
Proof.
  revert got pad nbytes w.
  induction fuel as [|fuel IH]; intros got pad nbytes w Hc Hpad Hfuel; [lia|].
  simpl. destruct (Z.gtb_spec (Z.of_nat nbytes) 0) as [Hpos|Hzero].
  - set (view := MemoryView (got ++ pad) (length got)).
    assert (Hmv : mv_len view = nbytes).
    { unfold mv_len, view. simpl. rewrite length_app. lia. }
    destruct (recv_into_calm fuel (SocketStream._socket self) view (Z.of_nat nbytes) 0 w Hc)
      as (data & w1 & E & Hd); [lia|lia|].
    rewrite (bnd_Return _ _ _ _ _ E). simpl.
    destruct (Z.eqb_spec (Z.of_nat nbytes) 0) as [?|_]; [lia|].
    rewrite Nat2Z.id in Hd.
    apply delivered_facts in Hd as (Hdata & Hrx & Hle & _ & _ & Hne & Hc1 & Hs1 & _).
    simpl in Hrx.
    assert (Hbuf : take (length got) (got ++ pad) ++ data
                   ++ drop (length got + length data) (got ++ pad)
                   = (got ++ data) ++ drop (length data) pad).
    { rewrite take_app_length, drop_app_add', <- app_assoc; done. }
    unfold len. destruct (Z.eqb_spec (Z.of_nat (length data)) 0) as [Hz|Hnz].
    + (* end of stream *)
      destruct data; [|simpl in Hz; lia].
      assert (Hnil : rx w = []).
      { destruct (rx w) eqn:Erx; [done|]. exfalso. apply Hne; [lia|done|done]. }
      exists w1. split; [done|]. rewrite Hnil. simpl.
      rewrite decide_False by lia. split; [|lia].
      unfold raise. do 2 f_equal. f_equal. subst view. cbn [mv_buf mv_start].
      rewrite Nat.add_0_r, take_drop, app_nil_r.
      unfold slice_to, len. rewrite length_app.
      destruct (Z.ltb_spec (Z.of_nat (length got + length pad) - Z.of_nat nbytes) 0);
        [lia|].
      replace (Z.to_nat (Z.of_nat (length got + length pad) - Z.of_nat nbytes))
        with (length got) by lia.
      apply take_app_length.
    + (* some bytes were read *)
      unfold mv_slice_from, mv_write. subst view. cbn [mv_buf mv_start].
      rewrite Hbuf.
      assert (Hstart : length got
                       + Nat.min (Z.to_nat (Z.of_nat (length data)))
                           (mv_len (MemoryView ((got ++ data) ++ drop (length data) pad)
                                      (length got)))
                       = length (got ++ data)).
      { unfold mv_len. cbn [mv_buf mv_start].
        rewrite !length_app, length_drop, Nat2Z.id. lia. }
      rewrite Hstart.
      replace (Z.of_nat nbytes - Z.of_nat (length data))%Z
        with (Z.of_nat (nbytes - length data)) by lia.
      destruct (IH (got ++ data) (drop (length data) pad) (nbytes - length data) w1 Hc1)
        as (w' & Hc' & E' & Hrx'); [rewrite length_drop; lia|lia|].
      exists w'. split; [done|]. rewrite E', Hrx, length_drop.
      assert (Hdl : length data <= length (rx w)).
      { rewrite Hdata, length_take in Hle |- *. lia. }
      split.
      * destruct (decide (nbytes <= length (rx w))), (decide (nbytes - length data
                                                      <= length (rx w) - length data));
          try lia; do 2 f_equal; rewrite <- app_assoc; f_equal.
        -- rewrite (take_split (rx w) (length data) nbytes) by lia.
           by rewrite <- Hdata.
        -- f_equal. rewrite Hdata at 1. apply take_drop.
      * intros Hn. rewrite Hrx' by (rewrite Hrx, length_drop; lia).
        rewrite Hrx, drop_drop. f_equal. lia.
  - assert (nbytes = 0) as -> by lia. destruct pad; [|done].
    exists w. split; [done|]. rewrite decide_True by lia.
    rewrite take_0, drop_0, !app_nil_r. done.
Qed.

(** C5. On a calm world (any fragmentation, any number of "would block" and
    TLS retry answers), for every [n >= 0] and enough fuel:
    [receive_exactly(n)] on a stream holding at least [n] bytes returns
    exactly its first [n] bytes and leaves the rest in the stream; on a
    stream that ends before [n] bytes it raises [IncompleteRead] carrying
    exactly the bytes read so far, that is, all the stream held. *)
Theorem receive_exactly_correct self n w fuel :
  calm w ->
  (0 <= n)%Z ->
  Z.to_nat n + length (script w) < fuel ->
  exists w',
    SocketStream.receive_exactly fuel self n w
      = (if decide (n <= len (rx w))%Z
         then Return (take (Z.to_nat n) (rx w))
         else Raise (IncompleteRead (rx w)), w')
    /\ ((n <= len (rx w))%Z -> rx w' = drop (Z.to_nat n) (rx w)).
Proof.
  intros Hc Hn Hfuel. unfold SocketStream.receive_exactly, bytearray, len.
  destruct (Z.ltb_spec n 0) as [?|_]; [lia|].
  destruct (receive_exactly_loop_calm fuel self [] (replicate (Z.to_nat n) x00)
              (Z.to_nat n) w Hc) as (w' & _ & E & Hrx).
  { apply length_replicate. }
  { done. }
  simpl in E. rewrite Z2Nat.id in E by done.
  exists w'. split.
  - rewrite E. destruct (decide (Z.to_nat n <= length (rx w))),
      (decide (n <= Z.of_nat (length (rx w)))%Z); try done; lia.
  - intros H. apply Hrx. lia.
Qed.

Lemma receive_exactly_correct_witness :
  exists w',
    SocketStream.receive_exactly 20 stream0 5 w_C5 = (Return (b "abcde"), w')
    /\ ((5 <= 7)%Z -> rx w' = b "fg").
Proof.
  exact (receive_exactly_correct stream0 5 w_C5 20 eq_refl ltac:(lia)
           ltac:(vm_compute; lia)).
Defined.

(** ** receive_until *)

Lemma slice_to_nat x i : slice_to x (Z.of_nat i) = take i x.
Proof.
  unfold slice_to. destruct (Z.ltb_spec (Z.of_nat i) 0); [lia|]. by rewrite Nat2Z.id.
Qed.

Lemma receive_until_loop_calm fuel self d max offset buf w :
  calm w ->
  (len buf <= Z.max 0 max)%Z ->
  Z.to_nat (max - len buf) + length (script w) < fuel ->
  exists w',
    calm w'
    /\ ((exists i,
           SocketStream.receive_until_loop fuel self d max offset buf w
             = (Return (take i (buf ++ rx w)), w')
           /\ (Z.of_nat (i + length d) <= max)%Z
           /\ starts_with d (drop i (buf ++ rx w)) = true)
        \/ (SocketStream.receive_until_loop fuel self d max offset buf w
              = (Raise (IncompleteRead (buf ++ rx w)), w')
            /\ (len (buf ++ rx w) < max)%Z)
        \/ (SocketStream.receive_until_loop fuel self d max offset buf w
              = (Raise (DelimiterNotFound (take (Z.to_nat max) (buf ++ rx w))), w')
            /\ (max <= len (buf ++ rx w))%Z
            /\ rx w' = drop (Z.to_nat max - length buf) (rx w))).
Proof.
  revert offset buf w.
  induction fuel as [|fuel IH]; intros offset buf w Hc Hbuf Hfuel; [lia|].
  simpl. unfold len in *. destruct (Z.ltb_spec (Z.of_nat (length buf)) max) as [Hlt|Hge].
  - (* one more peek *)
    destruct (recv_calm fuel (SocketStream._socket self)
                (max - Z.of_nat (length buf)) MSG_PEEK w Hc)
      as (data & w1 & E1 & Hd1); [lia|lia|].
    rewrite (bnd_Return _ _ _ _ _ E1).
    apply delivered_facts in Hd1
      as (Hdata & Hrx1 & Hle1 & _ & Hready1 & Hne1 & Hc1 & Hs1 & _).
    change (is_peek MSG_PEEK) with true in *. specialize (Hready1 eq_refl).
    destruct data as [|x data'].
    + (* end of stream *)
      assert (Hnil : rx w = []).
      { destruct (rx w) eqn:Erx; [done|]. exfalso. apply Hne1; [lia|done|done]. }
      exists w1. split; [done|]. right. left. rewrite Hnil, app_nil_r.
      split; [done|lia].
    + assert (Hpos : 0 < length (x :: data')) by (simpl; lia).
      remember (x :: data') as data eqn:Edata. clear Edata x data' Hne1.
      simpl in Hrx1.
      assert (Hall : (buf ++ data) ++ drop (length data) (rx w) = buf ++ rx w).
      { rewrite <- app_assoc. f_equal. rewrite Hdata at 1. apply take_drop. }
      assert (Hlen' : length (buf ++ data) <= Z.to_nat max).
      { rewrite length_app. lia. }
      destruct (find_spec (buf ++ data) d offset) as [Ef|(i & Ef & Hi & Hs)]; rewrite Ef.
      * (* not found: drain what was peeked, go on *)
        simpl.
        destruct (recv_calm fuel (SocketStream._socket self)
                    (Z.of_nat (length data)) 0 w1 Hc1)
          as (data2 & w2 & E2 & Hd2); [lia|lia|].
        rewrite (bnd_Return _ _ _ _ _ E2).
        apply delivered_facts in Hd2
          as (Hdata2 & Hrx2 & Hle2 & Hmin2 & _ & _ & Hc2 & Hs2 & _).
        change (is_peek 0) with false in *. rewrite Nat2Z.id in *.
        assert (Hl2 : length data2 = length data) by lia.
        rewrite Hl2, Hrx1 in Hrx2.
        destruct (IH (offset + (Z.of_nat (length data) - Z.of_nat (length d) + 1))%Z
                    (buf ++ data) w2 Hc2) as (w' & Hc' & Hcases).
        { rewrite length_app. lia. }
        { rewrite length_app. lia. }
        rewrite Hrx2, Hall in Hcases.
        exists w'. split; [done|].
        destruct Hcases as [(j & E & Hj & Hsj)|[(E & Hl)|(E & Hl & Hrx')]].
        -- left. by exists j.
        -- right. left. done.
        -- right. right. split_and!; [done|done|].
           rewrite Hrx', drop_drop. f_equal. rewrite length_app. lia.
      * (* found at index i *)
        destruct (Z.geb_spec (Z.of_nat i) 0) as [_|?]; [|lia].
        destruct (recv_calm fuel (SocketStream._socket self)
                    (Z.of_nat i + Z.of_nat (length d)) 0 w1 Hc1)
          as (data2 & w2 & E2 & Hd2); [lia|lia|].
        rewrite (bnd_Return _ _ _ _ _ E2).
        apply delivered_facts in Hd2 as (_ & _ & _ & _ & _ & _ & Hc2 & _ & _).
        exists w2. split; [done|]. left. exists i.
        rewrite slice_to_nat, <- Hall.
        rewrite (take_app_le (buf ++ data)) by lia. split_and!; [done|lia|].
        rewrite (drop_app_le (buf ++ data)) by lia. by apply starts_with_app.
  - (* the buffer is full *)
    exists w. split; [done|]. right. right.
    assert (Hb : take (Z.to_nat max) (buf ++ rx w) = buf).
    { destruct (Z.le_gt_cases 0 max).
      - replace (Z.to_nat max) with (length buf) by lia. apply take_app_length.
      - destruct buf; [|simpl in *; lia]. by replace (Z.to_nat max) with 0 by lia. }
    rewrite Hb. split_and!; [done|rewrite length_app; lia|].
    replace (Z.to_nat max - length buf) with 0 by lia. done.
Qed.

Lemma starts_with_in_range sub buf i n :
  starts_with sub (drop i buf) = true -> i + length sub <= n -> n <= length buf ->
  search sub (take n buf) <> None.
Proof.
  intros Hs Hi Hn Hnone.
  rewrite (search_prefix_None sub buf n Hnone i) in Hs; [done|lia|lia].
Qed.

(** C7. On a calm world whose stream holds at least [max_size] bytes, the
    first [max_size] of which do not contain the delimiter,
    [receive_until(d, max_size)] raises [DelimiterNotFound] carrying exactly
    those [max_size] bytes, and the bytes it took from the stream are the
    bytes it carries (payload followed by what is left is the original
    stream). A rerun with a larger [max_size] on a fresh stream with the
    same data scans the same bytes: it either carries a buffer that starts
    with them ([IncompleteRead] of the whole stream, [DelimiterNotFound] of
    its first [max'] bytes) or returns a prefix up to a match that ends
    beyond the first [max_size] bytes. *)
Theorem receive_until_delimiter_not_found self d max_size w fuel :
  calm w ->
  (0 <= max_size <= len (rx w))%Z ->
  search d (take (Z.to_nat max_size) (rx w)) = None ->
  Z.to_nat max_size + length (script w) < fuel ->
  (exists w',
     SocketStream.receive_until fuel self d max_size w
       = (Raise (DelimiterNotFound (take (Z.to_nat max_size) (rx w))), w')
     /\ take (Z.to_nat max_size) (rx w) ++ rx w' = rx w)
  /\ (forall max' w2 fuel2,
        (max_size <= max')%Z -> calm w2 -> rx w2 = rx w ->
        Z.to_nat max' + length (script w2) < fuel2 ->
        exists w2',
          (exists i,
             SocketStream.receive_until fuel2 self d max' w2 = (Return (take i (rx w)), w2')
             /\ (max_size < Z.of_nat (i + length d))%Z)
          \/ (SocketStream.receive_until fuel2 self d max' w2
                = (Raise (IncompleteRead (rx w)), w2')
              /\ (len (rx w) < max')%Z)
          \/ SocketStream.receive_until fuel2 self d max' w2
               = (Raise (DelimiterNotFound (take (Z.to_nat max') (rx w))), w2')).
Proof.
  intros Hc Hmax Hnone Hfuel. unfold len in Hmax. split.
  - destruct (receive_until_loop_calm fuel self d max_size 0 [] w Hc)
      as (w' & _ & [(i & E & Hi & Hs)|[(E & Hl)|(E & Hl & Hrx)]]);
      [unfold len; simpl; lia|unfold len; simpl; lia|..]; change ([] ++ rx w) with (rx w) in *;
      change (length (@nil byte)) with 0 in *.
    + exfalso. eapply (starts_with_in_range d (rx w) i (Z.to_nat max_size)); eauto; lia.
    + unfold len in Hl. lia.
    + exists w'. split; [done|]. rewrite Hrx, Nat.sub_0_r. apply take_drop.
  - intros max' w2 fuel2 Hmax' Hc2 Hrx2 Hfuel2.
    destruct (receive_until_loop_calm fuel2 self d max' 0 [] w2 Hc2)
      as (w' & _ & [(i & E & Hi & Hs)|[(E & Hl)|(E & Hl & Hrx)]]);
      [unfold len; simpl; lia|unfold len; simpl; lia|..]; change ([] ++ rx w2) with (rx w2) in *;
      rewrite Hrx2 in *; exists w'.
    + left. exists i. split; [done|].
      destruct (Z.lt_ge_cases max_size (Z.of_nat (i + length d))); [done|].
      exfalso. eapply (starts_with_in_range d (rx w) i (Z.to_nat max_size)); eauto; lia.
    + right. left. done.
    + right. right. done.
Qed.

Lemma receive_until_delimiter_not_found_witness :
  exists w',
    SocketStream.receive_until 20 stream0 (b ";") 4 w_C7
      = (Raise (DelimiterNotFound (b "abcd")), w')
    /\ b "abcd" ++ rx w' = b "abcdefgh".
Proof.
  exact (proj1 (receive_until_delimiter_not_found stream0 (b ";") 4 w_C7 20
                  eq_refl ltac:(vm_compute; split; discriminate) eq_refl
                  ltac:(vm_compute; lia))).
Defined.

(** C2, as amended. On a calm world whose stream is [p ++ d ++ rest], where
    [p] does not contain [d], the first occurrence of [d] in [p ++ d] is at
    [len(p)], [len(p ++ d) <= max_size] and [p ++ d] has already been
    received (the first peek reveals the delimiter),
    [receive_until(d, max_size)] returns exactly [p] and consumes exactly
    [p ++ d], leaving [rest]. *)
Theorem receive_until_frame self d p rest max_size w fuel :
  calm w ->
  rx w = p ++ d ++ rest ->
  search d p = None ->
  search d (p ++ d) = Some (length p) ->
  (len (p ++ d) <= max_size)%Z ->
  length (p ++ d) <= length (rx_ready w) ->
  length (script w) + 1 < fuel ->
  exists w',
    SocketStream.receive_until fuel self d max_size w = (Return p, w')
    /\ rx w' = rest.
Proof.
  intros Hc Hrx Hnot Hfirst Hmax Hready Hfuel. unfold len in Hmax.
  assert (Hd : 0 < length d).
  { destruct d; [|simpl; lia]. by destruct p. }
  rewrite length_app in Hmax, Hready.
  destruct fuel as [|fuel]; [lia|]. unfold SocketStream.receive_until. simpl.
  change (len []) with 0%Z.
  destruct (Z.ltb_spec 0 max_size) as [_|?]; [|lia].
  destruct (recv_calm fuel (SocketStream._socket self) (max_size - 0) MSG_PEEK w Hc)
    as (data & w1 & E1 & Hd1); [lia|lia|].
  rewrite (bnd_Return _ _ _ _ _ E1).
  apply delivered_facts in Hd1
    as (Hdata & Hrx1 & Hle1 & Hmin1 & Hready1 & _ & Hc1 & Hs1 & _).
  change (is_peek MSG_PEEK) with true in *. specialize (Hready1 eq_refl).
  simpl in Hrx1.
  assert (Hlen : length p + length d <= length data) by lia.
  destruct data as [|x data'] eqn:Edata; [simpl in Hlen; lia|].
  rewrite <- Edata in *. clear Edata x data'.
  assert (Hpd : data = (p ++ d) ++ take (length data - length (p ++ d)) rest).
  { rewrite Hdata at 1. rewrite Hrx, app_assoc, take_app. f_equal.
    apply take_ge. rewrite length_app. lia. }
  assert (Hfind : find data d 0 = Z.of_nat (length p)).
  { apply find_first. rewrite Hpd. by apply search_app. }
  rewrite Hfind.
  destruct (Z.geb_spec (Z.of_nat (length p)) 0) as [_|?]; [|lia].
  destruct (recv_calm fuel (SocketStream._socket self)
              (Z.of_nat (length p) + len d) 0 w1 Hc1)
    as (data2 & w2 & E2 & Hd2); [unfold len; lia|lia|].
  rewrite (bnd_Return _ _ _ _ _ E2).
  apply delivered_facts in Hd2 as (_ & Hrx2 & Hle2 & Hmin2 & _ & _ & _ & _ & _).
  change (is_peek 0) with false in *. unfold len in *.
  replace (Z.to_nat (Z.of_nat (length p) + Z.of_nat (length d)))
    with (length (p ++ d)) in * by (rewrite length_app; lia).
  exists w2. split.
  - unfold ret. do 2 f_equal. rewrite slice_to_nat, Hpd, <- app_assoc.
    by rewrite take_app_length.
  - rewrite Hrx2, Hrx1, Hrx, app_assoc.
    replace (length data2) with (length (p ++ d)) by (rewrite length_app in *; lia).
    by rewrite drop_app_length.
Qed.

Lemma receive_until_frame_witness :
  exists w',
    SocketStream.receive_until 10 stream0 LF 100 w_hello = (Return (b "hello"), w')
    /\ rx w' = b "world".
Proof.
  exact (receive_until_frame stream0 LF (b "hello") (b "world") 100 w_hello 10
           eq_refl eq_refl eq_refl eq_refl ltac:(by vm_compute)
           ltac:(simpl; lia) ltac:(simpl; lia)).
Defined.

(** ** Frame conditions *)

Section Preserves.
Context (R : relation world) `{!PreOrder R}.

Lemma preserves_ret {A} (a : A) : preserves R (ret a).
Proof. intros w. reflexivity. Qed.

Lemma preserves_raise {A} e : preserves R (@raise A e).
Proof. intros w. reflexivity. Qed.

Lemma preserves_out_of_fuel {A} : preserves R (@out_of_fuel A).
Proof. intros w. reflexivity. Qed.

Lemma preserves_get : preserves R get.
Proof. intros w. reflexivity. Qed.

Lemma preserves_modify f : (forall w, R w (f w)) -> preserves R (modify f).
Proof. intros H w. apply H. Qed.

Lemma preserves_bnd {A B} (c : M A) (k : A -> M B) :
  preserves R c -> (forall a, preserves R (k a)) -> preserves R (bnd c k).
Proof.
  intros Hc Hk w. unfold bnd. specialize (Hc w).
  destruct (c w) as [[a|e|] w1]; simpl in *; [|done..].
  etrans; [exact Hc|]. apply Hk.
Qed.

Lemma preserves_try_except {A} (c : M A) (h : exn -> M A) :
  preserves R c -> (forall e, preserves R (h e)) -> preserves R (try_except c h).
Proof.
  intros Hc Hh w. unfold try_except. specialize (Hc w).
  destruct (c w) as [[a|e|] w1]; simpl in *; [done| |done].
  etrans; [exact Hc|]. apply Hh.
Qed.

Lemma preserves_attempt {A} (c : M A) : preserves R c -> preserves R (attempt c).
Proof.
  intros Hc. apply preserves_try_except.
  - apply preserves_bnd; [done|]. intros a. apply preserves_ret.
  - intros e. apply preserves_ret.
Qed.
End Preserves.

(** Proves [preserves R c] for straight-line code, one constructor at a time. *)
Ltac preserves_step :=
  first
    [ apply preserves_ret; tc_solve | apply preserves_raise; tc_solve
    | apply preserves_out_of_fuel; tc_solve | apply preserves_get; tc_solve
    | apply preserves_bnd; [tc_solve| |intros ?]
    | apply preserves_try_except; [tc_solve| |intros ?]
    | apply preserves_attempt; [tc_solve|]
    | match goal with
      | |- preserves _ (match ?x with _ => _ end) => destruct x
      | |- preserves _ (if ?x then _ else _) => destruct x
      end ].

(** *** The log only grows *)

#[local] Instance log_ext_preorder P : PreOrder (log_ext P).
Proof.
  split.
  - intros w. exists []. by rewrite app_nil_r.
  - intros w1 w2 w3 (evs & E & HP) (evs' & E' & HP'). exists (evs ++ evs').
    rewrite E', E, app_assoc. split; [done|]. by apply Forall_app.
Qed.

Lemma emits_emit P ev : P ev -> emits P (emit ev).
Proof. intros H w. exists [ev]. split; [by destruct w|]. by constructor. Qed.

Lemma log_ext_same P w w' : log w' = log w -> log_ext P w w'.
Proof. intros E. exists []. by rewrite app_nil_r. Qed.

Ltac emits_step :=
  first
    [ apply emits_emit
    | apply preserves_modify; intros []; apply log_ext_same; reflexivity
    | preserves_step ].

Ltac emits_auto := repeat emits_step.

Lemma emits_check P : P EvCheckCancelled -> emits P _check_cancelled.
Proof. intros. unfold _check_cancelled. emits_auto. done. Qed.

Lemma emits_wait P ev : P ev -> emits P (wait_on ev).
Proof. intros. unfold wait_on. emits_auto. done. Qed.

Lemma emits_next_step P : emits P next_step.
Proof. unfold next_step. emits_auto. Qed.

Lemma emits_rx_call P n peek : emits P (rx_call n peek).
Proof.
  unfold rx_call, arrive, take_rx. emits_auto; try apply emits_next_step.
  all: try (apply preserves_modify; intros []; apply log_ext_same; unfold set_rx; simpl;
            repeat match goal with |- context [match ?k with _ => _ end] => destruct k end;
            reflexivity).
Qed.

Ltac emits_any :=
  repeat first
    [ exact I
    | apply emits_next_step
    | apply emits_rx_call
    | apply emits_check
    | apply emits_wait
    | emits_step ].

Lemma emits_raw_socket P self : emits P (BaseSocket._raw_socket self).
Proof. unfold BaseSocket._raw_socket. emits_auto. Qed.

Lemma emits_raw_send P s data flags :
  P (EvRaw s (CallSend data flags)) -> emits P (raw_send s data flags).
Proof.
  intros. unfold raw_send. emits_auto; try apply emits_next_step; done.
Qed.

Lemma emits_send P fuel self data flags :
  P EvCheckCancelled -> P EvWaitReadable -> P EvWaitWritable ->
  (forall s, P (EvRaw s (CallSend data flags))) ->
  emits P (BaseSocket.send fuel self data flags).
Proof.
  intros Hck Hr Hw Hs. induction fuel as [|fuel IH]; simpl; [apply preserves_out_of_fuel; tc_solve|].
  apply preserves_bnd; [tc_solve|by apply emits_check|intros _].
  apply preserves_bnd; [tc_solve| |].
  { apply preserves_attempt; [tc_solve|].
    apply preserves_bnd; [tc_solve|apply emits_raw_socket|intros s].
    by apply emits_raw_send. }
  intros [n|e]; [apply preserves_ret; tc_solve|].
  destruct e; try (apply preserves_raise; tc_solve);
    (apply preserves_bnd; [tc_solve|by apply emits_wait|intros _; exact IH]).
Qed.

Lemma emits_any_recv fuel self size flags :
  emits any_event (BaseSocket.recv fuel self size flags).
Proof.
  induction fuel as [|fuel IH]; simpl; [apply preserves_out_of_fuel; tc_solve|].
  unfold raw_recv, BaseSocket._raw_socket, _wait_readable, _wait_writable.
  emits_any; exact IH.
Qed.

Lemma emits_any_recv_into fuel self buffer nbytes flags :
  emits any_event (BaseSocket.recv_into fuel self buffer nbytes flags).
Proof.
  induction fuel as [|fuel IH]; simpl; [apply preserves_out_of_fuel; tc_solve|].
  unfold raw_recv_into, BaseSocket._raw_socket, _wait_readable, _wait_writable.
  emits_any; exact IH.
Qed.

Lemma emits_any_sendall_loop fuel self data flags to_send :
  emits any_event (BaseSocket.sendall_loop fuel self data flags to_send).
Proof.
  revert to_send. induction fuel as [|fuel IH]; intros to_send; simpl;
    [apply preserves_out_of_fuel; tc_solve|].
  unfold raw_send, BaseSocket._raw_socket, _wait_readable, _wait_writable.
  emits_any; apply IH.
Qed.

(** ** Cancellation is checked first *)

Lemma check_then {A} (k : M A) :
  emits any_event k -> checked_first (_check_cancelled ;; k).
Proof.
  intros Hk w. split.
  - unfold _check_cancelled, emit, modify, get, bnd at 1 2 3 4. simpl.
    destruct (fst (pop_answer (checks w))).
    + exists []. by destruct w.
    + unfold ret at 1. unfold bnd.
      match goal with |- context [k ?w1] => destruct (Hk w1) as (evs & E & _) end.
      exists evs. destruct (k _) as [[a|e|] w2]; simpl in *; rewrite E;
        destruct w; simpl; by rewrite <- app_assoc.
  - intros e rest Hck.
    unfold _check_cancelled, emit, modify, get, bnd. simpl. rewrite Hck. done.
Qed.

(** C4, as amended. Each of [accept], [bind], [connect], [recv],
    [recv_into], [recvfrom], [recvfrom_into], [send], [sendto], and
    [sendall] on a non-empty payload, for every input and every world,
    starts by asking the scheduler whether the task is cancelled: the check
    is the first thing it logs, and when the task is cancelled it raises the
    cancellation signal with nothing changed but the log of that check and
    the scheduler's answer being used up (the socket is not touched). *)
Theorem cancellation_checked_first self fuel :
  (checked_first (BaseSocket.accept self))
  /\ (forall a, checked_first (BaseSocket.bind self a))
  /\ (forall a, checked_first (BaseSocket.connect self a))
  /\ (forall size flags, checked_first (BaseSocket.recv (S fuel) self size flags))
  /\ (forall buffer nbytes flags,
        checked_first (BaseSocket.recv_into (S fuel) self buffer nbytes flags))
  /\ (forall size flags, checked_first (BaseSocket.recvfrom self size flags))
  /\ (forall buffer size flags,
        checked_first (BaseSocket.recvfrom_into self buffer size flags))
  /\ (forall data flags, checked_first (BaseSocket.send (S fuel) self data flags))
  /\ (forall data addr flags, checked_first (BaseSocket.sendto self data addr flags))
  /\ (forall data flags, data <> [] ->
        checked_first (BaseSocket.sendall (S fuel) self data flags)).
Proof.
  split_and!; intros.
  - apply check_then.
    unfold raw_accept, BaseSocket.__init__, BaseSocket.set_raw_socket, raw_setblocking,
      BaseSocket._raw_socket, _wait_readable. emits_any.
  - unfold BaseSocket.bind. apply check_then.
    unfold _run_in_thread, raw_bind, BaseSocket._raw_socket. emits_any.
  - apply check_then.
    unfold raw_connect, raw_getsockopt_error, BaseSocket._raw_socket, _wait_writable.
    emits_any.
  - apply check_then.
    unfold raw_recv, BaseSocket._raw_socket, _wait_readable, _wait_writable.
    emits_any; apply emits_any_recv.
  - apply check_then.
    unfold raw_recv_into, BaseSocket._raw_socket, _wait_readable, _wait_writable.
    emits_any; apply emits_any_recv_into.
  - apply check_then.
    unfold raw_recvfrom, BaseSocket._raw_socket, _wait_readable. emits_any.
  - apply check_then.
    unfold raw_recvfrom_into, BaseSocket._raw_socket, _wait_readable. emits_any.
  - apply check_then.
    unfold raw_send, BaseSocket._raw_socket, _wait_readable, _wait_writable.
    emits_any; apply emits_send; done.
  - apply check_then.
    unfold raw_sendto, BaseSocket._raw_socket, _wait_writable. emits_any.
  - unfold BaseSocket.sendall. simpl.
    assert ((len data >? 0)%Z = true) as ->.
    { destruct data; [done|]. unfold len. by simpl. }
    apply check_then.
    unfold raw_send, BaseSocket._raw_socket, _wait_readable, _wait_writable.
    emits_any; apply emits_any_sendall_loop.
Qed.

Lemma cancellation_checked_first_witness :
  checked_first (BaseSocket.sendall 3 0 (b "ab") 0).
Proof. apply (cancellation_checked_first 0 2). discriminate. Defined.

(** ** start_tls *)

Lemma raw_of_insert self s w :
  BaseSocket.raw_of self (set_store (fun m => <[self := s]> m) w) = s.
Proof. unfold BaseSocket.raw_of. destruct w; simpl. by rewrite lookup_insert_eq. Qed.

Lemma handshake_step self w :
  exists w1,
    attempt (s <- BaseSocket._raw_socket self ;; raw_do_handshake s) w
      = (Return (match script w with
                 | Signal e :: _ => inr e
                 | _ => inl tt
                 end), w1)
    /\ store w1 = store w /\ closed w1 = closed w
    /\ length (script w1) = length (script w) - 1.
Proof.
  destruct w as [st no nf cl bl ready pending wi pk so sc ck wt lg dt].
  destruct sc as [|[k|e] sc]; eexists; (split; [reflexivity|]); simpl;
    split_and!; try reflexivity; lia.
Qed.

Lemma wait_step ev w :
  exists w1,
    (wait_on ev w = (Return tt, w1) \/ exists e, wait_on ev w = (Raise e, w1))
    /\ store w1 = store w /\ closed w1 = closed w /\ script w1 = script w
    /\ last (log w1) = Some ev.
Proof.
  destruct w as [st no nf cl bl ready pending wi pk so sc ck wt lg dt].
  unfold wait_on, emit, modify, get, bnd. simpl.
  destruct wt as [|[e|] wt]; simpl; eexists;
    (split; [first [left; reflexivity | right; eexists; reflexivity]|]);
    simpl; split_and!; try reflexivity; apply last_snoc.
Qed.

Lemma raw_of_store self w w' : store w' = store w ->
  BaseSocket.raw_of self w' = BaseSocket.raw_of self w.
Proof. unfold BaseSocket.raw_of. by intros ->. Qed.

Lemma start_tls_loop_outcome fuel self plain w :
  length (script w) < fuel ->
  exists w',
    closed w' = closed w
    /\ ((BaseSocket.start_tls_loop fuel self plain w = (Return tt, w')
         /\ BaseSocket.raw_of self w' = BaseSocket.raw_of self w)
        \/ (exists e,
              BaseSocket.start_tls_loop fuel self plain w = (Raise e, w')
              /\ (BaseSocket.raw_of self w' = plain
                  \/ (BaseSocket.raw_of self w' = BaseSocket.raw_of self w
                      /\ ended_waiting w')))).
Proof.
  revert w. induction fuel as [|fuel IH]; intros w Hfuel; [lia|].
  simpl. destruct (handshake_step self w) as (w1 & E1 & Hst1 & Hcl1 & Hsc1).
  rewrite (bnd_Return _ _ _ _ _ E1).
  assert (Hwait : forall ev, ev = EvWaitReadable \/ ev = EvWaitWritable ->
    script w <> [] ->
    exists w',
      closed w' = closed w
      /\ (((wait_on ev ;; BaseSocket.start_tls_loop fuel self plain) w1 = (Return tt, w')
           /\ BaseSocket.raw_of self w' = BaseSocket.raw_of self w)
          \/ (exists e,
                (wait_on ev ;; BaseSocket.start_tls_loop fuel self plain) w1 = (Raise e, w')
                /\ (BaseSocket.raw_of self w' = plain
                    \/ (BaseSocket.raw_of self w' = BaseSocket.raw_of self w
                        /\ ended_waiting w'))))).
  { intros ev Hev Hne.
    destruct (wait_step ev w1) as (w2 & [E2|[e E2]] & Hst2 & Hcl2 & Hsc2 & Hlast).
    - rewrite (bnd_Return _ _ _ _ _ E2).
      destruct (IH w2) as (w' & Hcl' & H).
      { rewrite Hsc2. destruct (script w); [done|]. simpl in *. lia. }
      exists w'. split; [congruence|].
      rewrite (raw_of_store self w w2) in H by congruence. exact H.
    - rewrite (bnd_Raise _ _ _ _ _ E2). exists w2. split; [congruence|].
      right. exists e. split; [done|]. right.
      split; [apply raw_of_store; congruence|].
      unfold ended_waiting. destruct Hev as [-> | ->]; auto. }
  destruct (script w) as [|[k|e] sc] eqn:Hsc.
  - exists w1. split; [done|]. left. split; [done|]. by apply raw_of_store.
  - exists w1. split; [done|]. left. split; [done|]. by apply raw_of_store.
  - destruct e;
      try (apply Hwait; [auto|done]);
      (eexists; split;
        [|right; eexists; split; [reflexivity|left; apply raw_of_insert]];
        by destruct w1).
Qed.

Lemma start_tls_outcome fuel self context server_hostname w :
  length (script w) < fuel ->
  let plain := BaseSocket.raw_of self w in
  let wrapped := SSLSocket (fileno plain) context
                   (negb (BaseSocket.truthy server_hostname)) server_hostname in
  exists w',
    closed w' = closed w
    /\ ((BaseSocket.start_tls fuel self context server_hostname w = (Return tt, w')
         /\ BaseSocket.raw_of self w' = wrapped)
        \/ (exists e,
              BaseSocket.start_tls fuel self context server_hostname w = (Raise e, w')
              /\ (BaseSocket.raw_of self w' = plain
                  \/ (BaseSocket.raw_of self w' = wrapped /\ ended_waiting w')))).
Proof.
  intros Hfuel plain wrapped. unfold BaseSocket.start_tls.
  assert (Hwrap : exists w1,
    (wrap_socket context plain (negb (BaseSocket.truthy server_hostname))
       server_hostname w = (Return wrapped, w1)
     \/ exists e, wrap_socket context plain (negb (BaseSocket.truthy server_hostname))
                    server_hostname w = (Raise e, w1))
    /\ store w1 = store w /\ closed w1 = closed w
    /\ length (script w1) <= length (script w)).
  { clearbody plain. destruct w as [st no nf cl bl ready pending wi pk so sc ck wt lg dt].
    destruct sc as [|[k|e] sc]; eexists;
      (split; [first [left; reflexivity | right; eexists; reflexivity]|]);
      simpl; split_and!; try reflexivity; lia. }
  destruct Hwrap as (w1 & [E1|[e E1]] & Hst1 & Hcl1 & Hsc1).
  - assert (E0 : BaseSocket._raw_socket self w = (Return plain, w)) by done.
    rewrite (bnd_Return _ _ _ _ _ E0), (bnd_Return _ _ _ _ _ E1).
    set (w2 := set_store (fun m => <[self := wrapped]> m) w1).
    assert (E2 : BaseSocket.set_raw_socket self wrapped w1 = (Return tt, w2)) by done.
    rewrite (bnd_Return _ _ _ _ _ E2).
    destruct (start_tls_loop_outcome fuel self plain w2) as (w' & Hcl' & H).
    { subst w2. destruct w1; simpl in *. lia. }
    exists w'. split; [subst w2; destruct w1; simpl in *; congruence|].
    subst w2. rewrite raw_of_insert in H. exact H.
  - assert (E0 : BaseSocket._raw_socket self w = (Return plain, w)) by done.
    rewrite (bnd_Return _ _ _ _ _ E0), (bnd_Raise _ _ _ _ _ E1).
    exists w1. split; [done|]. right. exists e. split; [done|]. left.
    by apply raw_of_store.
Qed.

(** *** The script is only consumed *)

#[local] Instance script_le_preorder : PreOrder script_le.
Proof. split; unfold script_le; [intros w; lia|intros w1 w2 w3; lia]. Qed.

Lemma script_le_next_step : preserves script_le next_step.
Proof.
  intros [st no nf cl bl ready pending wi pk so sc ck wt lg dt]. unfold script_le.
  destruct sc; simpl; lia.
Qed.

Ltac script_le_auto :=
  repeat first
    [ apply script_le_next_step
    | apply preserves_modify; [intros []; unfold script_le; simpl; lia]
    | preserves_step ].

Lemma script_le_accept self : preserves script_le (BaseSocket.accept self).
Proof.
  unfold BaseSocket.accept, _check_cancelled, _wait_readable, wait_on, emit,
    raw_accept, BaseSocket.__init__, BaseSocket.set_raw_socket, raw_setblocking,
    BaseSocket._raw_socket.
  script_le_auto.
Qed.

(** ** SocketStreamServer.accept *)

Lemma close_outcome sock w :
  exists w',
    BaseSocket.close sock w = (Return tt, w')
    /\ last (log w') = Some (EvRaw (BaseSocket.raw_of sock w) CallClose)
    /\ detached w' = detached w
    /\ closed w' = (if decide (BaseSocket.raw_of sock w ∈ detached w) then closed w
                   else {[fileno (BaseSocket.raw_of sock w)]} ∪ closed w).
Proof.
  destruct w as [st no nf cl bl ready pending wi pk so sc ck wt lg dt].
  unfold BaseSocket.close, _notify_close, BaseSocket._raw_socket, raw_close,
    emit, modify, get, bnd, ret. cbn -[BaseSocket.raw_of decide].
  destruct (decide (BaseSocket.raw_of sock _ ∈ dt)) as [Hin|Hout];
    eexists; (split; [reflexivity|]); cbn -[BaseSocket.raw_of decide];
    rewrite last_snoc; split_and!; reflexivity.
Qed.

(** What [accept] does with the outcome of the upgrade, once the underlying
    accept has returned [sock]: when [start_tls] returns, [accept] returns the
    stream and does nothing more; when [start_tls] raises [e], [accept] calls
    [close()] on whatever handle [start_tls] left installed and raises [e].
    That call releases the descriptor only if the handle still owns it. *)
Lemma accept_after_upgrade fuel self ctx w sock addr w1 :
  SocketStreamServer._ssl_context self = Some ctx ->
  BaseSocket.accept (SocketStreamServer._socket self) w = (Return (sock, addr), w1) ->
  let stream := SocketStream.Make sock None None in
  (forall w2,
      SocketStream.start_tls fuel stream (Some ctx) w1 = (Return tt, w2) ->
      SocketStreamServer.accept fuel self w = (Return stream, w2))
  /\ (forall e w2,
        SocketStream.start_tls fuel stream (Some ctx) w1 = (Raise e, w2) ->
        let handle := BaseSocket.raw_of sock w2 in
        exists w',
          SocketStreamServer.accept fuel self w = (Raise e, w')
          /\ last (log w') = Some (EvRaw handle CallClose)
          /\ closed w' = (if decide (handle ∈ detached w2) then closed w2
                         else {[fileno handle]} ∪ closed w2)).
Proof.
  intros Hctx Hacc stream.
  unfold SocketStreamServer.accept. rewrite (bnd_Return _ _ _ _ _ Hacc), Hctx.
  cbn [fst]. unfold try_except. split.
  - intros w2 E. fold stream. by rewrite (bnd_Return _ _ _ _ _ E).
  - intros e w2 E. cbv zeta. fold stream. rewrite (bnd_Raise _ _ _ _ _ E).
    destruct (close_outcome sock w2) as (w3 & E3 & Hlast & _ & Hcl).
    rewrite (bnd_Return _ _ _ _ _ E3). by exists w3.
Qed.

(** C8 fails on the code. A listener configured with TLS accepts a
    connection (descriptor 1) whose handshake fails with an SSL error.
    [accept] re-raises that error, and the last thing it does is call
    [close()] on the accepted socket; but the handle installed at that point
    is the plain socket that [start_tls] put back, which [wrap_socket]
    had detached. The call releases nothing: descriptor 1, now owned by the
    TLS wrapper that nobody holds any more, is not closed by [accept]. *)
Theorem accept_leaves_descriptor_open_on_failed_handshake :
  let r := SocketStreamServer.accept 5 listener w_bad_handshake in
  fst r = Raise (SSLError 1)
  /\ log (snd r)
     = [ EvCheckCancelled;
         EvRaw (PlainSocket 0) CallAccept;
         EvRaw (PlainSocket 1) (CallSetblocking false);
         EvWrapSocket (PlainSocket 1);
         EvRaw (SSLSocket 1 (Context 1) true None) CallDoHandshake;
         EvNotifyClose;
         EvRaw (PlainSocket 1) CallClose ]
  /\ BaseSocket.raw_of 1 (snd r) = PlainSocket 1
  /\ detached (snd r) = [PlainSocket 1]
  /\ 1 ∉ closed (snd r).
Proof.
  cbv zeta. split_and!; by vm_compute.
Qed.

(** ** receive_chunks *)

Lemma receive_chunks_resume_eq f self max_size w :
  SocketStream.receive_chunks_resume f self max_size w
  = match SocketStream.receive_some f self max_size w with
    | (Return [], w1) => (Return None, w1)
    | (Return (x :: data), w1) => (Return (Some (x :: data)), w1)
    | (Raise e, w1) => (Raise e, w1)
    | (OutOfFuel, w1) => (OutOfFuel, w1)
    end.
Proof.
  unfold SocketStream.receive_chunks_resume, bnd.
  by destruct (SocketStream.receive_some f self max_size w) as [[[|x data]|e|] w1].
Qed.

(** C9. Driving [receive_chunks(max_size)] to its end: no chunk it yields is
    empty, whatever happens; and it ends without error with the chunks
    [chunks] exactly when the successive [receive_some] calls return the
    items of [chunks], all non-empty, and then the empty result (given fuel
    for [len(chunks) + 1] resumptions). The chunks are, in order, what those
    calls delivered. *)
Theorem receive_chunks_spec fuel f self max_size w :
  let gen := SocketStream.receive_chunks_resume f self max_size in
  Forall (fun c => c <> []) (fst (drain fuel gen w))
  /\ forall chunks w',
       drain fuel gen w = (chunks, (Return tt, w'))
       <-> (length chunks < fuel
            /\ Forall (fun c => c <> []) chunks
            /\ successive (SocketStream.receive_some f self max_size) w
                 (chunks ++ [[]]) w'
            /\ concat chunks = concat (chunks ++ [[]])).
Proof.
  intros gen. revert w. induction fuel as [|fuel IH]; intros w.
  { split; [constructor|]. intros chunks w'. split; [done|]. intros (? & _); lia. }
  simpl. subst gen. rewrite receive_chunks_resume_eq.
  destruct (SocketStream.receive_some f self max_size w) as [[[|x data]|e|] w1] eqn:E.
  - (* end of stream *)
    split; [constructor|]. intros chunks w'. split.
    + intros [= <- <-]. split_and!; [simpl; lia|constructor| |done].
      econstructor; [exact E|constructor].
    + intros (_ & Hne & Hs & _). destruct chunks as [|c chunks]; simpl in Hs.
      * inversion Hs as [|? ? ? ? ? E' Hs']; subst. inversion Hs'; subst.
        rewrite E in E'. by injection E' as <-.
      * inversion Hs as [|? ? ? ? ? E' Hs']; subst. rewrite E in E'.
        injection E' as <- <-. by inversion Hne.
  - (* a chunk *)
    destruct (IH w1) as [IH1 IH2]. split; [constructor; [done|exact IH1]|].
    intros chunks w'. split.
    + intros H.
      destruct (drain fuel _ w1) as [rest [o w2]] eqn:Ed. simpl in H.
      injection H as <- -> ->.
      destruct (proj1 (IH2 rest w') eq_refl) as (Hl & Hne & Hs & Hcat).
      split_and!; [simpl; lia|by constructor|by econstructor|].
      by rewrite concat_app, app_nil_r.
    + intros (Hl & Hne & Hs & _). destruct chunks as [|c chunks]; simpl in Hs.
      * inversion Hs as [|? ? ? ? ? E' Hs']; subst. rewrite E in E'. done.
      * inversion Hs as [|? ? ? ? ? E' Hs']; subst. rewrite E in E'.
        injection E' as <- <-. inversion Hne; subst.
        assert (Hd : drain fuel (SocketStream.receive_chunks_resume f self max_size) w1
                     = (chunks, (Return tt, w'))).
        { apply IH2. split_and!; [simpl in Hl; lia|done|done|].
          by rewrite concat_app, app_nil_r. }
        by rewrite Hd.
  - (* a failure *)
    split; [constructor|]. intros chunks w'. split; [done|].
    intros (_ & _ & Hs & _). destruct chunks; simpl in Hs;
      inversion Hs as [|? ? ? ? ? E' Hs']; subst; rewrite E in E'; done.
  - split; [constructor|]. intros chunks w'. split; [done|].
    intros (_ & _ & Hs & _). destruct chunks; simpl in Hs;
      inversion Hs as [|? ? ? ? ? E' Hs']; subst; rewrite E in E'; done.
Qed.

(** On a calm world the generator runs to the end of the stream and its
    chunks are the stream. *)
Lemma receive_chunks_calm fuel f self max_size w :
  calm w -> (0 < max_size)%Z -> length (script w) < f -> length (rx w) < fuel ->
  exists chunks w',
    drain fuel (SocketStream.receive_chunks_resume f self max_size) w
      = (chunks, (Return tt, w'))
    /\ concat chunks = rx w
    /\ Forall (fun c => c <> []) chunks.
Proof.
  revert w. induction fuel as [|fuel IH]; intros w Hc Hmax Hf Hfuel; [lia|].
  simpl. rewrite receive_chunks_resume_eq. unfold SocketStream.receive_some.
  destruct (recv_calm f (SocketStream._socket self) max_size 0 w Hc)
    as (data & w1 & E & Hd); [lia|lia|].
  rewrite E. apply delivered_facts in Hd
    as (Hdata & Hrx & _ & _ & _ & Hne & Hc1 & Hs1 & _).
  change (is_peek 0) with false in Hrx.
  destruct data as [|x data'] eqn:Ed.
  - exists [], w1. split; [done|]. split; [|constructor].
    destruct (rx w); [done|]. exfalso. apply Hne; [lia|done|done].
  - rewrite <- Ed in *.
    assert (Hpos : 0 < length data) by (rewrite Ed; simpl; lia).
    destruct (IH w1 Hc1 Hmax) as (chunks & w' & E' & Hcat & Hall); [lia| |].
    { rewrite Hrx, length_drop. rewrite Hdata, length_take in Hpos. lia. }
    exists (data :: chunks), w'. rewrite E'. simpl. split; [by rewrite Ed|].
    split.
    + rewrite Hcat, Hrx. rewrite Hdata at 1. apply take_drop.
    + constructor; [by rewrite Ed|done].
Qed.

(** ** start_tls and the scheduler *)

Lemma emits_start_tls_loop P fuel self plain :
  P EvWaitReadable -> P EvWaitWritable ->
  (forall s, P (EvRaw s CallDoHandshake)) ->
  emits P (BaseSocket.start_tls_loop fuel self plain).
Proof.
  intros Hr Hw Hh. induction fuel as [|fuel IH]; simpl;
    [apply preserves_out_of_fuel; tc_solve|].
  unfold raw_do_handshake, BaseSocket._raw_socket, BaseSocket.set_raw_socket,
    _wait_readable, _wait_writable.
  repeat first [ exact IH | apply emits_next_step | apply emits_wait; assumption
               | apply emits_emit; apply Hh | emits_step ].
Qed.

(** start_tls never asks the scheduler whether the task is cancelled. *)
Lemma start_tls_never_checks fuel self context server_hostname :
  emits (fun ev => ev <> EvCheckCancelled)
    (BaseSocket.start_tls fuel self context server_hostname).
Proof.
  unfold BaseSocket.start_tls, wrap_socket, BaseSocket._raw_socket,
    BaseSocket.set_raw_socket.
  repeat first [ apply emits_start_tls_loop; [done|done|done]
               | apply emits_next_step
               | apply emits_emit; discriminate
               | emits_step ].
Qed.

(** ** The scenarios of the specification *)

Lemma scenario_hello_world :
  let r := SocketStream.receive_until 5 stream0 LF 100
             (world0 (b "hello" ++ LF ++ b "world") [] [] [] []) in
  fst r = Return (b "hello")
  /\ fst (SocketStream.receive_some 5 stream0 100 (snd r)) = Return (b "world").
Proof. split; by vm_compute. Qed.

Lemma scenario_incomplete_read :
  fst (SocketStream.receive_exactly 9 stream0 5 (world0 (b "ab") [] [] [] []))
  = Raise (IncompleteRead (b "ab")).
Proof. by vm_compute. Qed.

Lemma scenario_chunks :
  let r := drain 9 (SocketStream.receive_chunks_resume 9 stream0 2)
             (world0 (b "ab") (b "cde") [Xfer 0; Xfer 2; Xfer 1] [] []) in
  fst r = [b "ab"; b "cd"; b "e"] /\ fst (snd r) = Return tt.
Proof. split; by vm_compute. Qed.

(** ** DatagramSocket.send *)

(** C10. When [address] or [port] is [None], [DatagramSocket.send] ignores
    the destination: it behaves exactly as [send] on the connected socket,
    and nothing it logs is a [sendto]. So [sendto] is used only when both
    are given. *)
Theorem datagram_send_partial_destination fuel self data address port w :
  address = None \/ port = None ->
  DatagramSocket.send fuel self data address port w
    = (BaseSocket.send fuel (DatagramSocket._socket self) data 0 ;; ret tt) w
  /\ log_ext (fun ev => ~ is_sendto ev) w
       (snd (DatagramSocket.send fuel self data address port w)).
Proof.
  intros Hpart.
  assert (E : DatagramSocket.send fuel self data address port
              = (BaseSocket.send fuel (DatagramSocket._socket self) data 0 ;; ret tt)).
  { unfold DatagramSocket.send. destruct Hpart as [-> | ->]; [done|]. by destruct address. }
  rewrite E. split; [done|].
  apply preserves_bnd; [tc_solve| |intros ?; apply preserves_ret; tc_solve].
  apply emits_send; [| | |intros s]; intros (s' & d & f & a & [=]).
Qed.

Lemma datagram_send_partial_destination_witness :
  DatagramSocket.send 5 (DatagramSocket.Make 0) (b "hi") (Some (IPLiteral "10.0.0.1")) None w_C10
    = (BaseSocket.send 5 0 (b "hi") 0 ;; ret tt) w_C10
  /\ log_ext (fun ev => ~ is_sendto ev) w_C10
       (snd (DatagramSocket.send 5 (DatagramSocket.Make 0) (b "hi")
               (Some (IPLiteral "10.0.0.1")) None w_C10)).
Proof.
  exact (datagram_send_partial_destination 5 (DatagramSocket.Make 0) (b "hi")
           (Some (IPLiteral "10.0.0.1")) None w_C10 (or_intror eq_refl)).
Defined.

(** With both parts of the destination the datagram is addressed. *)
Lemma datagram_send_addressed fuel self data a p w :
  DatagramSocket.send fuel self data (Some a) (Some p) w
  = (BaseSocket.sendto (DatagramSocket._socket self) data (AddrPair a p) 0 ;; ret tt) w.
Proof. done. Qed.

(** ** sendall *)

(** Without short writes [sendall] puts exactly [data] on the wire. *)
Lemma sendall_full_write fuel self data flags w :
  calm w -> script w = [] ->
  exists w',
    BaseSocket.sendall (S (S fuel)) self data flags w = (Return tt, w')
    /\ wire w' = wire w ++ data.
Proof.
  intros (Hs & Hck & Hw)%calm_parts Hsc.
  destruct w as [st no nf cl bl ready pending wi pk so sc ck wt lg dt].
  simpl in *. subst sc. unfold BaseSocket.sendall.
  destruct data as [|x data].
  - eexists. split; [reflexivity|]. simpl. by rewrite app_nil_r.
  - destruct (pop_answer_calm _ Hck) as [E1 E2].
    cbn -[take Z.sub Z.gtb len]. unfold _check_cancelled, emit, modify, get, bnd. simpl.
    rewrite E1. unfold len. simpl.
    rewrite Z.sub_diag. simpl. eexists. split; [reflexivity|]. simpl.
    by rewrite firstn_all.
Qed.

(** ** Runs that contradict the specification *)

(** C1 fails on the code. [sendall] hands the whole of [data] to [send] on
    every round and only counts what was accepted: with two short writes of
    one byte each, [sendall(b"ab")] returns normally having put "aa", not
    "ab", on the wire. *)
Lemma sendall_resends_the_head :
  fst (BaseSocket.sendall 5 0 (b "ab") 0 w_short_writes) = Return tt
  /\ wire (snd (BaseSocket.sendall 5 0 (b "ab") 0 w_short_writes)) = b "aa"
  /\ b "aa" <> b "ab".
Proof. split_and!; [by vm_compute|by vm_compute|discriminate]. Qed.

(** C2, as stated, fails. The payload "a" does not contain the delimiter
    "aa", yet in "a" ++ "aa" the delimiter first occurs at index 0: on a
    stream pre-loaded with "a" ++ "aa" ++ "xyz", delivered whole,
    [receive_until] returns the empty payload and leaves "axyz". *)
Lemma receive_until_overlap_counterexample :
  search (b "aa") (b "a") = None
  /\ (len (b "a" ++ b "aa") <= 100)%Z
  /\ calm (world0 (b "a" ++ b "aa" ++ b "xyz") [] [] [] [])
  /\ fst (SocketStream.receive_until 5 stream0 (b "aa") 100
            (world0 (b "a" ++ b "aa" ++ b "xyz") [] [] [] [])) = Return []
  /\ rx (snd (SocketStream.receive_until 5 stream0 (b "aa") 100
            (world0 (b "a" ++ b "aa" ++ b "xyz") [] [] [] []))) = b "axyz"
  /\ @Return bytes [] <> Return (b "a").
Proof. split_and!; try (by vm_compute); discriminate. Qed.

(** When the delimiter shows only at the second peek, the bytes drained
    after the first peek are counted again in the final read, which eats
    into what follows the delimiter: "XY" is lost here. *)
Lemma receive_until_overconsumes :
  fst (SocketStream.receive_until 5 stream0 LF 100 w_two_peeks) = Return (b "abc")
  /\ rx (snd (SocketStream.receive_until 5 stream0 LF 100 w_two_peeks)) = b "Z".
Proof. split; by vm_compute. Qed.

(** C6 fails on the code. The offset is not clamped: with a three-byte
    delimiter whose first byte arrives alone, the offset is -1 after the
    first peek; [find] counts a negative start from the end of the buffer,
    so the second peek, which completes the delimiter, searches "abc" from
    index 2 only. The delimiter, present in full at index 0 and straddling
    the two peeks, is never seen; the call ends in [IncompleteRead]. *)
Lemma receive_until_misses_straddling_delimiter :
  calm w_split_delimiter
  /\ search (b "abc") (rx w_split_delimiter) = Some 0
  /\ find (b "abc") (b "abc") (-1) = (-1)%Z
  /\ fst (SocketStream.receive_until 10 stream0 (b "abc") 100 w_split_delimiter)
     = Raise (IncompleteRead (b "abc")).
Proof. split_and!; by vm_compute. Qed.

(** C3 fails on the code. When the handshake wants to read and the wait
    for readiness fails (here: the task is cancelled), the failure leaves
    [start_tls] from inside the [except] clause, past the clause that
    restores the handle: the socket keeps the TLS wrapper. *)
Lemma start_tls_keeps_tls_handle_on_wait_failure :
  BaseSocket.raw_of 0 w_cancel_in_handshake = PlainSocket 0
  /\ fst (BaseSocket.start_tls 5 0 (Context 1) None w_cancel_in_handshake)
     = Raise CancelledError
  /\ BaseSocket.raw_of 0 (snd (BaseSocket.start_tls 5 0 (Context 1) None
                                 w_cancel_in_handshake))
     = SSLSocket 0 (Context 1) true None.
Proof. split_and!; by vm_compute. Qed.

(** C4, as stated, fails. On an already cancelled task, [sendall] of an
    empty payload returns normally without asking the scheduler (its loop
    is never entered), and [start_tls] wraps the socket and runs the
    handshake without asking it either: in both runs the scheduler's answer
    is still unused and the call does not fail. *)
Lemma cancellation_check_counterexample :
  checks w_cancelled = [Some CancelledError]
  /\ BaseSocket.sendall 5 0 [] 0 w_cancelled = (Return tt, w_cancelled)
  /\ fst (BaseSocket.start_tls 5 0 (Context 1) None w_cancelled) = Return tt
  /\ log (snd (BaseSocket.start_tls 5 0 (Context 1) None w_cancelled))
     = [EvWrapSocket (PlainSocket 0);
        EvRaw (SSLSocket 0 (Context 1) true None) CallDoHandshake]
  /\ checks (snd (BaseSocket.start_tls 5 0 (Context 1) None w_cancelled))
     = [Some CancelledError].
Proof. split_and!; by vm_compute. Qed.

(** * Further properties *)

(** ** Running a call on a world given field by field *)

Ltac world_fields :=
  unfold BaseSocket.raw_of;
  cbn [store next_obj next_fd closed backlog rx_ready rx_pending wire packets so_error
       script checks waits log detached set_store set_next_obj set_next_fd set_closed
       set_backlog set_rx set_wire set_packets set_script set_checks set_waits
       set_detached set_log];
  repeat match goal with
         | |- context [(?a ++ ?b) ++ ?c] => rewrite <- (app_assoc a b c)
         end.

Ltac run :=
  match goal with
  | |- exists w', ?c = (?o, w') /\ _ =>
      let r := eval lazy -[BaseSocket.raw_of app insert union singleton] in (snd c) in
      exists r; split; [vm_compute; reflexivity|]
  end.

(** ** recv and recv_into on a calm world *)

(** On a calm world [recv] returns, whatever the socket layer answers in
    between: the data is a prefix of what the stream still holds, of at most
    [size] bytes, not empty when [size] is positive and the stream has not
    ended; it is removed from the stream unless the call is a peek. *)
Theorem recv_returns_prefix fuel self size flags w :
  calm w -> (0 <= size)%Z -> length (script w) < fuel ->
  exists data w',
    BaseSocket.recv fuel self size flags w = (Return data, w')
    /\ data = take (length data) (rx w)
    /\ (len data <= size)%Z
    /\ ((0 < size)%Z -> rx w <> [] -> data <> [])
    /\ rx w' = (if is_peek flags then rx w else drop (length data) (rx w))
    /\ calm w'.
Proof.
  intros Hc Hsize Hfuel.
  destruct (recv_calm fuel self size flags w Hc Hsize Hfuel) as (data & w' & E & Hd).
  apply delivered_facts in Hd as (Hdata & Hrx & Hle & _ & _ & Hne & Hc' & _ & _).
  exists data, w'. split_and!; try done.
  - unfold len. lia.
  - intros. apply Hne; [lia|done].
Qed.

Lemma recv_returns_prefix_witness :
  exists data w',
    BaseSocket.recv 9 0 2 0 w_fragments = (Return data, w')
    /\ data = take (length data) (b "abcdef")
    /\ (len data <= 2)%Z
    /\ ((0 < 2)%Z -> b "abcdef" <> [] -> data <> [])
    /\ rx w' = drop (length data) (b "abcdef")
    /\ calm w'.
Proof.
  exact (recv_returns_prefix 9 0 2 0 w_fragments eq_refl ltac:(lia) ltac:(simpl; lia)).
Defined.

(** A peek followed by a read of as many bytes as the peek returned: the
    read returns the same bytes, and only the read consumes them. *)
Theorem peek_then_read fuel self size w :
  calm w -> (0 <= size)%Z -> length (script w) < fuel ->
  exists data w1 w2,
    BaseSocket.recv fuel self size MSG_PEEK w = (Return data, w1)
    /\ BaseSocket.recv fuel self (len data) 0 w1 = (Return data, w2)
    /\ rx w1 = rx w
    /\ rx w2 = drop (length data) (rx w).
Proof.
  intros Hc Hsize Hfuel.
  destruct (recv_calm fuel self size MSG_PEEK w Hc Hsize Hfuel) as (data & w1 & E1 & Hd1).
  apply delivered_facts in Hd1 as (Hdata & Hrx1 & _ & _ & Hready & _ & Hc1 & Hs1 & _).
  change (is_peek MSG_PEEK) with true in *. specialize (Hready eq_refl).
  destruct (recv_calm fuel self (len data) 0 w1 Hc1) as (data2 & w2 & E2 & Hd2);
    [unfold len; lia|lia|].
  apply delivered_facts in Hd2 as (Hdata2 & Hrx2 & Hle2 & Hmin2 & _ & _ & _ & _ & _).
  change (is_peek 0) with false in *. unfold len in *. rewrite Nat2Z.id in *.
  assert (Hl : length data2 = length data) by lia.
  assert (data2 = data) as -> by (rewrite Hdata2, Hdata, Hl, Hrx1; done).
  exists data, w1, w2. split_and!; try done. by rewrite Hrx2, Hrx1.
Qed.

Lemma peek_then_read_witness :
  exists data w1 w2,
    BaseSocket.recv 9 0 4 MSG_PEEK w_fragments = (Return data, w1)
    /\ BaseSocket.recv 9 0 (len data) 0 w1 = (Return data, w2)
    /\ rx w1 = b "abcdef"
    /\ rx w2 = drop (length data) (b "abcdef").
Proof.
  exact (peek_then_read 9 0 4 w_fragments eq_refl ltac:(lia) ltac:(simpl; lia)).
Defined.

(** [recv_into] through a view that starts at [start]: the bytes received are
    written at [start], the rest of the underlying buffer is untouched, and
    the count returned is the number of bytes written. *)
Theorem recv_into_fills_view fuel self buf start nbytes w :
  calm w -> (0 < nbytes)%Z -> start + Z.to_nat nbytes <= length buf ->
  length (script w) < fuel ->
  exists data view' w',
    BaseSocket.recv_into fuel self (MemoryView buf start) nbytes 0 w
      = (Return (len data, view'), w')
    /\ data = take (length data) (rx w)
    /\ (len data <= nbytes)%Z
    /\ rx w' = drop (length data) (rx w)
    /\ mv_start view' = start
    /\ length (mv_buf view') = length buf
    /\ take start (mv_buf view') = take start buf
    /\ take (length data) (drop start (mv_buf view')) = data
    /\ drop (start + length data) (mv_buf view') = drop (start + length data) buf.
Proof.
  intros Hc Hn Hfit Hfuel.
  destruct (recv_into_calm fuel self (MemoryView buf start) nbytes 0 w Hc)
    as (data & w' & E & Hd); [unfold mv_len; simpl; lia|done|].
  destruct (Z.eqb_spec nbytes 0) as [?|_]; [lia|].
  apply delivered_facts in Hd as (Hdata & Hrx & Hle & _ & _ & _ & _ & _ & _).
  change (is_peek 0) with false in *.
  exists data, (mv_write (MemoryView buf start) data), w'.
  unfold mv_write. cbn [mv_buf mv_start].
  assert (Hts : length (take start buf) = start) by (rewrite length_take; lia).
  split_and!; try done.
  - unfold len. lia.
  - rewrite !length_app, length_take, length_drop. lia.
  - rewrite take_app_le by lia. rewrite take_ge by lia. done.
  - rewrite drop_app_length' by done. by rewrite take_app_length.
  - rewrite app_assoc, drop_app_length'; [done|]. rewrite length_app. lia.
Qed.

Lemma recv_into_fills_view_witness :
  exists data view' w',
    BaseSocket.recv_into 9 0 (MemoryView (b "XXXXXX") 1) 3 0 w_fragments
      = (Return (len data, view'), w')
    /\ data = take (length data) (b "abcdef")
    /\ (len data <= 3)%Z
    /\ rx w' = drop (length data) (b "abcdef")
    /\ mv_start view' = 1
    /\ length (mv_buf view') = 6
    /\ take 1 (mv_buf view') = b "X"
    /\ take (length data) (drop 1 (mv_buf view')) = data
    /\ drop (1 + length data) (mv_buf view') = drop (1 + length data) (b "XXXXXX").
Proof.
  exact (recv_into_fills_view 9 0 (b "XXXXXX") 1 3 w_fragments eq_refl ltac:(lia)
           ltac:(simpl; lia) ltac:(simpl; lia)).
Defined.

(** ** send and sendall on a calm world *)

Lemma send_attempt_calm self data flags w :
  calm w ->
  let c := s <- BaseSocket._raw_socket self ;; raw_send s data flags in
  (exists e w', c w = (Raise e, w') /\ retry_signal e /\ retried w w'
                /\ script w' = tail (script w))
  \/ (exists n w', c w = (Return (Z.of_nat n), w') /\ sent data w n w').
Proof.
  intros Hc c. subst c. pose proof Hc as (Hs & Hck & Hw)%calm_parts.
  destruct w as [st no nf cl bl ready pending wi pk so sc ck wt lg dt].
  assert (Hcalm : forall sc' lg',
            forallb benign sc' = true ->
            calm (World st no nf cl bl ready pending wi pk so sc' ck wt lg' dt)).
  { intros sc' lg' H. apply calm_parts. simpl. auto. }
  simpl in *. destruct sc as [|[k|e] sc]; simpl in Hs.
  - (* the script is used up: everything is accepted *)
    right. exists (length data). destruct data as [|x data]; eexists;
      (split; [unfold raw_send, next_step, bnd, get, modify, emit, ret; simpl;
               reflexivity|]); unfold sent; simpl; rewrite ?firstn_all;
      split_and!; try done; try lia; try (by apply Hcalm).
  - unfold raw_send, next_step, BaseSocket._raw_socket, bnd, get, modify, emit, ret.
    cbn -[Nat.min take].
    destruct (Nat.min k (length data)) as [|n] eqn:En.
    + destruct data as [|x data].
      * right. exists 0. eexists. split; [reflexivity|].
        unfold sent; simpl. rewrite Nat.min_0_r. split_and!; try done; try lia; try (by apply Hcalm).
      * left. exists BlockingIOError. eexists. split; [reflexivity|].
        split; [by left|]. unfold retried, rx; simpl.
        split_and!; try done; try lia; try (by apply Hcalm).
    + right. exists (S n). eexists. split; [reflexivity|].
      unfold sent. cbn -[Nat.min take]. rewrite En.
      split_and!; try done; try lia; try (by apply Hcalm).
  - apply andb_true_iff in Hs as [He Hs]. left. exists e. eexists.
    split; [unfold raw_send, next_step, bnd, get, modify, emit, ret; simpl;
            reflexivity|].
    split; [destruct e; try discriminate; unfold retry_signal; auto|].
    unfold retried, rx; simpl. split_and!; try done; try lia; try (by apply Hcalm).
Qed.

(** On a calm world [send] returns the number of bytes the kernel accepted:
    a prefix of [data], not empty unless [data] is; that prefix, and nothing
    else, has been put on the wire. *)
Theorem send_accepts_prefix fuel self data flags w :
  calm w -> length (script w) < fuel ->
  exists n w',
    BaseSocket.send fuel self data flags w = (Return (Z.of_nat n), w')
    /\ n <= length data
    /\ (data <> [] -> 0 < n)
    /\ wire w' = wire w ++ take n data
    /\ rx w' = rx w
    /\ calm w'.
Proof.
  revert w. induction fuel as [|fuel IH]; intros w Hc Hfuel; [lia|].
  simpl.
  destruct (check_calm w Hc) as (w1 & E1 & Hc1 & Hn1).
  rewrite (bnd_Return _ _ _ _ _ E1).
  unfold bnd at 1. rewrite attempt_eq.
  pose proof (same_net_rx _ _ Hn1) as Hrx1.
  destruct Hn1 as (_ & _ & Hs1 & Hw1 & _).
  destruct (send_attempt_calm self data flags w1 Hc1)
    as [(e & w2 & E & He & Hr & _)|(n & w2 & E & Hsent)]; rewrite E.
  - destruct Hr as (Hrx2 & _ & Hc2 & Hlt & Hw2).
    assert (Hwait : forall ev, exists n w',
      (wait_on ev ;; BaseSocket.send fuel self data flags) w2 = (Return (Z.of_nat n), w')
      /\ n <= length data /\ (data <> [] -> 0 < n)
      /\ wire w' = wire w ++ take n data /\ rx w' = rx w /\ calm w').
    { intros ev. destruct (wait_calm ev w2 Hc2) as (w3 & E3 & Hc3 & Hn3).
      rewrite (bnd_Return _ _ _ _ _ E3).
      pose proof (same_net_rx _ _ Hn3) as Hrx3.
      destruct Hn3 as (_ & _ & Hs3 & Hw3 & _).
      destruct (IH w3 Hc3) as (n & w' & E' & ? & ? & Hwire & Hrx' & ?);
        [rewrite Hs3; rewrite Hs1 in Hlt; lia|].
      exists n, w'. split_and!; try done; congruence. }
    destruct He as [->|[->| ->]]; apply Hwait.
  - destruct Hsent as (Hle & Hpos & _ & Hwire & Hr & Hp & _ & Hc2).
    exists n, w2. split_and!; try done; [congruence|].
    unfold rx in *. congruence.
Qed.

Lemma send_accepts_prefix_witness :
  exists n w',
    BaseSocket.send 9 0 (b "hello") 0 w_slow_writer = (Return (Z.of_nat n), w')
    /\ n <= 5
    /\ (b "hello" <> [] -> 0 < n)
    /\ wire w' = take n (b "hello")
    /\ rx w' = []
    /\ calm w'.
Proof.
  exact (send_accepts_prefix 9 0 (b "hello") 0 w_slow_writer eq_refl ltac:(simpl; lia)).
Defined.

Lemma sendall_loop_full_writes fuel self data flags w :
  calm w -> full_writes data w = true -> data <> [] ->
  length (script w) + 1 < fuel ->
  exists w',
    BaseSocket.sendall_loop fuel self data flags (len data) w = (Return tt, w')
    /\ wire w' = wire w ++ data
    /\ calm w'.
Proof.
  revert w. induction fuel as [|fuel IH]; intros w Hc Hfull Hne Hfuel; [lia|].
  simpl. unfold len.
  destruct (Z.gtb_spec (Z.of_nat (length data)) 0) as [_|?];
    [|destruct data; [done|simpl in *; lia]].
  destruct (check_calm w Hc) as (w1 & E1 & Hc1 & Hn1).
  rewrite (bnd_Return _ _ _ _ _ E1).
  unfold bnd at 1. rewrite attempt_eq.
  destruct Hn1 as (_ & _ & Hs1 & Hw1 & _).
  assert (Hfull1 : full_writes data w1 = true) by (unfold full_writes in *; by rewrite Hs1).
  destruct (send_attempt_calm self data flags w1 Hc1)
    as [(e & w2 & E & He & Hr & Hs2)|(n & w2 & E & Hsent)]; rewrite E.
  - destruct Hr as (_ & _ & Hc2 & Hlt & Hw2).
    assert (Hfull2 : full_writes data w2 = true).
    { unfold full_writes in *. rewrite Hs2. destruct (script w1); [done|].
      simpl in *. by apply andb_true_iff in Hfull1 as [_ ?]. }
    assert (Hwait : forall ev, exists w',
      (wait_on ev ;; BaseSocket.sendall_loop fuel self data flags
                       (Z.of_nat (length data))) w2 = (Return tt, w')
      /\ wire w' = wire w ++ data /\ calm w').
    { intros ev. destruct (wait_calm ev w2 Hc2) as (w3 & E3 & Hc3 & Hn3).
      rewrite (bnd_Return _ _ _ _ _ E3).
      destruct Hn3 as (_ & _ & Hs3 & Hw3 & _).
      destruct (IH w3 Hc3) as (w' & E' & Hwire & ?);
        [|done|rewrite Hs3; rewrite Hs1 in Hlt; lia|].
      { unfold full_writes in *. by rewrite Hs3. }
      exists w'. split_and!; try done. congruence. }
    destruct He as [->|[->| ->]]; apply Hwait.
  - destruct Hsent as (Hle & Hpos & Hn & Hwire & _ & _ & _ & Hc2).
    assert (n = length data) as ->.
    { specialize (Hpos Hne). unfold full_writes in Hfull1.
      destruct (script w1) as [|[k|e] sc]; try done. simpl in Hfull1.
      apply andb_true_iff in Hfull1 as [Hk _].
      apply orb_true_iff in Hk as [Hk|Hk]; [apply Nat.eqb_eq in Hk|apply Nat.leb_le in Hk];
        lia. }
    rewrite Z.sub_diag. destruct fuel as [|fuel']; [lia|]. simpl.
    exists w2. split_and!; try done. rewrite Hwire, firstn_all. congruence.
Qed.

(** When no answer of the socket layer is a short write, [sendall] puts
    exactly [data] on the wire, however often the kernel stalls first. *)
Theorem sendall_without_short_writes fuel self data flags w :
  calm w -> full_writes data w = true -> length (script w) + 1 < fuel ->
  exists w',
    BaseSocket.sendall fuel self data flags w = (Return tt, w')
    /\ wire w' = wire w ++ data.
Proof.
  intros Hc Hfull Hfuel. unfold BaseSocket.sendall. destruct data as [|x data].
  - destruct fuel as [|fuel]; [lia|]. exists w. simpl. by rewrite app_nil_r.
  - destruct (sendall_loop_full_writes fuel self (x :: data) flags w) as (w' & E & Hw & _);
      try done.
    by exists w'.
Qed.

Lemma sendall_without_short_writes_witness :
  exists w',
    BaseSocket.sendall 9 0 (b "hello") 0 w_full_writer = (Return tt, w')
    /\ wire w' = b "hello".
Proof.
  exact (sendall_without_short_writes 9 0 (b "hello") 0 w_full_writer eq_refl eq_refl
           ltac:(simpl; lia)).
Defined.

(** ** accept, recvfrom, sendto: one wait, one more try *)

(** [accept] waits for readability once only: a second "would block" from
    the raw socket comes out as [BlockingIOError]. *)
Theorem accept_gives_up_after_one_wait self w sc :
  not_cancelled w -> wait_granted w ->
  script w = Signal BlockingIOError :: Signal BlockingIOError :: sc ->
  let h := BaseSocket.raw_of self w in
  exists w',
    BaseSocket.accept self w = (Raise BlockingIOError, w')
    /\ log w' = log w ++ [EvCheckCancelled; EvRaw h CallAccept; EvWaitReadable;
                          EvRaw h CallAccept]
    /\ script w' = sc
    /\ store w' = store w.
Proof.
  unfold not_cancelled, wait_granted.
  destruct w as [st no nf cl bl ready pending wi pk so sc0 ck wt lg dt].
  cbn [checks waits script]. intros Hck Hwt ->; cbv zeta.
  destruct ck as [|[e|] ck]; try discriminate Hck;
    destruct wt as [|[e|] wt]; try discriminate Hwt;
    run; world_fields; split_and?; reflexivity.
Qed.

Lemma accept_gives_up_after_one_wait_witness :
  exists w',
    BaseSocket.accept 0 w_busy = (Raise BlockingIOError, w')
    /\ log w' = [EvCheckCancelled; EvRaw (PlainSocket 0) CallAccept; EvWaitReadable;
                 EvRaw (PlainSocket 0) CallAccept]
    /\ script w' = []
    /\ store w' = store w_busy.
Proof.
  exact (accept_gives_up_after_one_wait 0 w_busy [] eq_refl eq_refl eq_refl).
Defined.

(** When a peer is waiting, [accept] returns a new socket object over a
    fresh descriptor, switched to non-blocking mode, with the address of the
    peer; nothing is closed or detached. *)
Theorem accept_returns_new_socket self w peer rest :
  not_cancelled w -> goes_through w -> backlog w = peer :: rest ->
  exists w',
    BaseSocket.accept self w = (Return (next_obj w, peer), w')
    /\ store w' = <[next_obj w := PlainSocket (next_fd w)]> (store w)
    /\ next_obj w' = S (next_obj w) /\ next_fd w' = S (next_fd w)
    /\ backlog w' = rest
    /\ log w' = log w ++ [EvCheckCancelled; EvRaw (BaseSocket.raw_of self w) CallAccept;
                          EvRaw (PlainSocket (next_fd w)) (CallSetblocking false)]
    /\ closed w' = closed w /\ detached w' = detached w.
Proof.
  unfold not_cancelled, goes_through.
  destruct w as [st no nf cl bl ready pending wi pk so sc0 ck wt lg dt].
  cbn [checks script backlog]. intros Hck Hgo ->.
  destruct ck as [|[e|] ck]; try discriminate Hck;
    destruct sc0 as [|[k|e] sc0]; try done;
    run; world_fields; split_and?; reflexivity.
Qed.

Lemma accept_returns_new_socket_witness :
  exists w',
    BaseSocket.accept 0 w_bad_handshake = (Return (1, peer), w')
    /\ store w' = <[1 := PlainSocket 1]> (store w_bad_handshake)
    /\ next_obj w' = 2 /\ next_fd w' = 2
    /\ backlog w' = []
    /\ log w' = [EvCheckCancelled; EvRaw (PlainSocket 0) CallAccept;
                 EvRaw (PlainSocket 1) (CallSetblocking false)]
    /\ closed w' = closed w_bad_handshake /\ detached w' = [].
Proof.
  exact (accept_returns_new_socket 0 w_bad_handshake peer [] eq_refl I eq_refl).
Defined.

(** [recvfrom] waits for readability once only; a second "would block"
    comes out, and no datagram is lost. *)
Theorem recvfrom_gives_up_after_one_wait self size flags w sc :
  not_cancelled w -> wait_granted w -> (0 <= size)%Z ->
  script w = Signal BlockingIOError :: Signal BlockingIOError :: sc ->
  let h := BaseSocket.raw_of self w in
  exists w',
    BaseSocket.recvfrom self size flags w = (Raise BlockingIOError, w')
    /\ log w' = log w ++ [EvCheckCancelled; EvRaw h (CallRecvfrom size flags);
                          EvWaitReadable; EvRaw h (CallRecvfrom size flags)]
    /\ packets w' = packets w.
Proof.
  unfold not_cancelled, wait_granted.
  destruct w as [st no nf cl bl ready pending wi pk so sc0 ck wt lg dt].
  cbn [checks waits script]. intros Hck Hwt Hsize ->; cbv zeta.
  unfold BaseSocket.recvfrom, raw_recvfrom.
  replace (size <? 0)%Z with false by lia.
  destruct ck as [|[e|] ck]; try discriminate Hck;
    destruct wt as [|[e|] wt]; try discriminate Hwt;
    run; world_fields; split_and?; reflexivity.
Qed.

Lemma recvfrom_gives_up_after_one_wait_witness :
  exists w',
    BaseSocket.recvfrom 0 100 0 w_busy = (Raise BlockingIOError, w')
    /\ log w' = [EvCheckCancelled; EvRaw (PlainSocket 0) (CallRecvfrom 100 0);
                 EvWaitReadable; EvRaw (PlainSocket 0) (CallRecvfrom 100 0)]
    /\ packets w' = [].
Proof.
  exact (recvfrom_gives_up_after_one_wait 0 100 0 w_busy [] eq_refl eq_refl
           ltac:(lia) eq_refl).
Defined.

(** [sendto] waits for writability once only; a second "would block"
    comes out. *)
Theorem sendto_gives_up_after_one_wait self data addr flags w sc :
  not_cancelled w -> wait_granted w ->
  script w = Signal BlockingIOError :: Signal BlockingIOError :: sc ->
  let h := BaseSocket.raw_of self w in
  exists w',
    BaseSocket.sendto self data addr flags w = (Raise BlockingIOError, w')
    /\ log w' = log w ++ [EvCheckCancelled; EvRaw h (CallSendto data flags addr);
                          EvWaitWritable; EvRaw h (CallSendto data flags addr)].
Proof.
  unfold not_cancelled, wait_granted.
  destruct w as [st no nf cl bl ready pending wi pk so sc0 ck wt lg dt].
  cbn [checks waits script]. intros Hck Hwt ->; cbv zeta.
  destruct ck as [|[e|] ck]; try discriminate Hck;
    destruct wt as [|[e|] wt]; try discriminate Hwt;
    run; world_fields; split_and?; reflexivity.
Qed.

Lemma sendto_gives_up_after_one_wait_witness :
  exists w',
    BaseSocket.sendto 0 (b "hi") peer 0 w_busy = (Raise BlockingIOError, w')
    /\ log w' = [EvCheckCancelled; EvRaw (PlainSocket 0) (CallSendto (b "hi") 0 peer);
                 EvWaitWritable; EvRaw (PlainSocket 0) (CallSendto (b "hi") 0 peer)].
Proof.
  exact (sendto_gives_up_after_one_wait 0 (b "hi") peer 0 w_busy [] eq_refl eq_refl
           eq_refl).
Defined.

(** ** connect *)

(** Once the raw connect went through or is in progress, the outcome of
    [connect] is the pending socket error: none returns, any other is
    raised as [OSError]. It waits for writability exactly when the raw
    connect would block. *)
Theorem connect_reports_pending_error self a w :
  not_cancelled w -> wait_granted w ->
  (forall e sc, script w = Signal e :: sc -> e = BlockingIOError) ->
  let h := BaseSocket.raw_of self w in
  exists w',
    BaseSocket.connect self a w
      = (if (so_error w =? 0)%Z then Return tt else Raise (OSError (so_error w)), w')
    /\ log w' = log w ++ [EvCheckCancelled; EvRaw h (CallConnect a)]
                  ++ match script w with
                     | Signal _ :: _ => [EvWaitWritable]
                     | _ => []
                     end
                  ++ [EvRaw h CallGetsockopt].
Proof.
  unfold not_cancelled, wait_granted.
  destruct w as [st no nf cl bl ready pending wi pk so sc0 ck wt lg dt].
  cbn [checks waits script so_error]. intros Hck Hwt Hsc; cbv zeta.
  destruct sc0 as [|[k|e] sc0]; [| |rewrite (Hsc e sc0 eq_refl)];
    (destruct ck as [|[e'|] ck]; try discriminate Hck);
    (destruct wt as [|[e'|] wt]; try discriminate Hwt);
    destruct so as [|p|p]; cbn [Z.eqb];
    run; world_fields; split_and?; reflexivity.
Qed.

Lemma connect_reports_pending_error_witness :
  exists w',
    BaseSocket.connect 0 peer w_refused = (Raise (OSError 111), w')
    /\ log w' = [EvCheckCancelled; EvRaw (PlainSocket 0) (CallConnect peer);
                 EvWaitWritable; EvRaw (PlainSocket 0) CallGetsockopt].
Proof.
  refine (connect_reports_pending_error 0 peer w_refused eq_refl eq_refl _).
  intros e sc H. injection H as <- _. reflexivity.
Defined.

(** A failure of the raw connect other than "would block" comes out at
    once: the pending socket error is not read. *)
Theorem connect_failure_skips_pending_error self a w e sc :
  not_cancelled w -> script w = Signal e :: sc -> e <> BlockingIOError ->
  let h := BaseSocket.raw_of self w in
  exists w',
    BaseSocket.connect self a w = (Raise e, w')
    /\ log w' = log w ++ [EvCheckCancelled; EvRaw h (CallConnect a)].
Proof.
  unfold not_cancelled.
  destruct w as [st no nf cl bl ready pending wi pk so sc0 ck wt lg dt].
  cbn [checks script]. intros Hck -> He; cbv zeta.
  destruct ck as [|[e'|] ck]; try discriminate Hck;
    destruct e; try (by destruct He);
    run; world_fields; split_and?; reflexivity.
Qed.

Lemma connect_failure_skips_pending_error_witness :
  exists w',
    BaseSocket.connect 0 peer w_unreachable = (Raise (OSError 101), w')
    /\ log w' = [EvCheckCancelled; EvRaw (PlainSocket 0) (CallConnect peer)].
Proof.
  refine (connect_failure_skips_pending_error 0 peer w_unreachable (OSError 101) []
            eq_refl eq_refl _).
  discriminate.
Defined.

(** ** bind *)

(** [bind] calls the raw bind directly for an IP literal with a port, and
    through the worker thread for a host name or a path. *)
Theorem bind_uses_thread_unless_ip_literal self a w :
  not_cancelled w -> goes_through w ->
  let h := BaseSocket.raw_of self w in
  exists w',
    BaseSocket.bind self a w = (Return tt, w')
    /\ log w' = log w ++ [EvCheckCancelled]
                  ++ match a with
                     | AddrPair (IPLiteral _) _ => []
                     | _ => [EvRunInThread]
                     end
                  ++ [EvRaw h (CallBind a)].
Proof.
  unfold not_cancelled, goes_through.
  destruct w as [st no nf cl bl ready pending wi pk so sc0 ck wt lg dt].
  cbn [checks script]. intros Hck Hgo; cbv zeta.
  destruct a as [[s|s] port|path];
    (destruct ck as [|[e'|] ck]; try discriminate Hck);
    (destruct sc0 as [|[k|e] sc0]; try (by destruct Hgo));
    run; world_fields; split_and?; reflexivity.
Qed.

Lemma bind_uses_thread_unless_ip_literal_witness :
  exists w',
    BaseSocket.bind 0 (AddrPair (HostName "localhost") 80) (world0 [] [] [] [] [])
      = (Return tt, w')
    /\ log w' = [EvCheckCancelled; EvRunInThread;
                 EvRaw (PlainSocket 0) (CallBind (AddrPair (HostName "localhost") 80))].
Proof.
  exact (bind_uses_thread_unless_ip_literal 0 (AddrPair (HostName "localhost") 80)
           (world0 [] [] [] [] []) eq_refl I).
Defined.

(** ** close *)

(** [close] notifies the scheduler, then closes the raw socket; when the
    handle owns its descriptor, the descriptor is released and [fileno()]
    reports -1 afterwards. *)
Theorem close_notifies_then_releases self w :
  BaseSocket.raw_of self w ∉ detached w ->
  let h := BaseSocket.raw_of self w in
  exists w',
    BaseSocket.close self w = (Return tt, w')
    /\ log w' = log w ++ [EvNotifyClose; EvRaw h CallClose]
    /\ closed w' = {[fileno h]} ∪ closed w
    /\ fst (BaseSocket.fileno self w') = Return (-1)%Z.
Proof.
  intros Hout h. subst h.
  destruct w as [st no nf cl bl ready pending wi pk so sc ck wt lg dt].
  unfold BaseSocket.fileno, BaseSocket.close, _notify_close, BaseSocket._raw_socket,
    raw_close, raw_fileno, emit, modify, get, bnd, ret, BaseSocket.raw_of in *.
  cbn [store detached closed log set_log set_closed fst snd] in *.
  set (h := default (PlainSocket self) (st !! self)) in *.
  rewrite decide_False by done. eexists. split; [reflexivity|].
  cbn [store detached closed log set_log set_closed fst snd]. fold h.
  rewrite <- app_assoc. split_and!; try reflexivity.
  rewrite decide_False by done. rewrite decide_True; [done|]. apply elem_of_union_l. by apply elem_of_singleton.
Qed.

Lemma close_notifies_then_releases_witness :
  exists w',
    BaseSocket.close 0 (world0 [] [] [] [] []) = (Return tt, w')
    /\ log w' = [EvNotifyClose; EvRaw (PlainSocket 0) CallClose]
    /\ closed w' = {[ 0 ]} ∪ ∅
    /\ fst (BaseSocket.fileno 0 w') = Return (-1)%Z.
Proof.
  refine (close_notifies_then_releases 0 (world0 [] [] [] [] []) _).
  apply not_elem_of_nil.
Defined.

(** ** start_tls and the ownership of the descriptor *)

#[local] Instance same_detached_preorder : PreOrder same_detached.
Proof. split; unfold same_detached; [done|intros w1 w2 w3; congruence]. Qed.

Ltac same_detached_auto :=
  repeat first
    [ apply preserves_modify; [intros []; reflexivity]
    | preserves_step ].

Lemma same_detached_next_step : preserves same_detached next_step.
Proof. unfold next_step. same_detached_auto. Qed.

Lemma same_detached_start_tls_loop fuel self plain :
  preserves same_detached (BaseSocket.start_tls_loop fuel self plain).
Proof.
  induction fuel as [|fuel IH]; simpl; [apply preserves_out_of_fuel; tc_solve|].
  unfold raw_do_handshake, BaseSocket._raw_socket, BaseSocket.set_raw_socket,
    _wait_readable, _wait_writable, wait_on, emit.
  repeat first [ exact IH | apply same_detached_next_step
               | apply preserves_modify; [intros []; reflexivity]
               | preserves_step ].
Qed.

Lemma start_tls_detaches fuel self context server_hostname w :
  goes_through w ->
  detached (snd (BaseSocket.start_tls fuel self context server_hostname w))
  = BaseSocket.raw_of self w :: detached w.
Proof.
  intros Hgo. unfold BaseSocket.start_tls.
  set (plain := BaseSocket.raw_of self w).
  set (wrapped := SSLSocket (fileno plain) context
                    (negb (BaseSocket.truthy server_hostname)) server_hostname).
  assert (E0 : BaseSocket._raw_socket self w = (Return plain, w)) by done.
  rewrite (bnd_Return _ _ _ _ _ E0).
  assert (E1 : exists w1,
    wrap_socket context plain (negb (BaseSocket.truthy server_hostname))
      server_hostname w = (Return wrapped, w1)
    /\ detached w1 = plain :: detached w).
  { clearbody plain. unfold goes_through in Hgo.
    destruct w as [st no nf cl bl ready pending wi pk so sc ck wt lg dt].
    cbn [script] in Hgo.
    destruct sc as [|[k|e] sc]; try (by destruct Hgo); eexists; split; reflexivity. }
  destruct E1 as (w1 & E1 & Hd1). rewrite (bnd_Return _ _ _ _ _ E1).
  set (w2 := set_store (fun m => <[self := wrapped]> m) w1).
  assert (E2 : BaseSocket.set_raw_socket self wrapped w1 = (Return tt, w2)) by done.
  rewrite (bnd_Return _ _ _ _ _ E2).
  pose proof (same_detached_start_tls_loop fuel self plain w2) as H.
  unfold same_detached in H. rewrite H. subst w2. by destruct w1.
Qed.

(** When the handshake itself fails, [start_tls] puts the plain socket
    back; but that socket was detached by the wrap and owns nothing. The
    descriptor has not been closed. *)
Theorem failed_handshake_restores_dead_handle fuel self context server_hostname w e w' :
  goes_through w -> length (script w) < fuel ->
  BaseSocket.start_tls fuel self context server_hostname w = (Raise e, w') ->
  ~ ended_waiting w' ->
  BaseSocket.raw_of self w' = BaseSocket.raw_of self w
  /\ BaseSocket.raw_of self w' ∈ detached w'
  /\ closed w' = closed w.
Proof.
  intros Hgo Hfuel E Hnot.
  pose proof (start_tls_detaches fuel self context server_hostname w Hgo) as Hd.
  destruct (start_tls_outcome fuel self context server_hostname w Hfuel)
    as (w2 & Hcl & [(E' & _)|(e' & E' & Hraw)]);
    rewrite E in E'; [discriminate|]. injection E' as _ Hw2. subst w2.
  rewrite E in Hd. cbn [snd] in Hd.
  destruct Hraw as [Hraw|(_ & Hw)]; [|done].
  split_and!; [done| |done]. rewrite Hraw, Hd. apply list_elem_of_here.
Qed.

Lemma failed_handshake_restores_dead_handle_witness :
  BaseSocket.raw_of 1 (snd (BaseSocket.start_tls 5 1 (Context 1) None
                              (snd (BaseSocket.accept 0 w_bad_handshake))))
  = BaseSocket.raw_of 1 (snd (BaseSocket.accept 0 w_bad_handshake))
  /\ BaseSocket.raw_of 1 (snd (BaseSocket.start_tls 5 1 (Context 1) None
                                 (snd (BaseSocket.accept 0 w_bad_handshake))))
     ∈ detached (snd (BaseSocket.start_tls 5 1 (Context 1) None
                        (snd (BaseSocket.accept 0 w_bad_handshake))))
  /\ closed (snd (BaseSocket.start_tls 5 1 (Context 1) None
                    (snd (BaseSocket.accept 0 w_bad_handshake))))
     = closed (snd (BaseSocket.accept 0 w_bad_handshake)).
Proof.
  refine (failed_handshake_restores_dead_handle 5 1 (Context 1) None
            (snd (BaseSocket.accept 0 w_bad_handshake)) (SSLError 1) _ _ _ _ _).
  - vm_compute. exact I.
  - vm_compute. lia.
  - vm_compute. reflexivity.
  - vm_compute. intros [H|H]; discriminate H.
Defined.



(** ** SocketStream.start_tls *)

(** The context is the argument if given, else the stream's own, else the
    default one; the wrapper is a server-side one exactly when the stream
    has no (or an empty) server hostname. *)
Theorem stream_start_tls_wrapper fuel self context w w' :
  length (script w) < fuel ->
  SocketStream.start_tls fuel self context w = (Return tt, w') ->
  let sock := SocketStream._socket self in
  let host := SocketStream._server_hostname self in
  BaseSocket.raw_of sock w'
  = SSLSocket (fileno (BaseSocket.raw_of sock w))
      (default (default DefaultContext (SocketStream._ssl_context self)) context)
      (match host with None | Some EmptyString => true | Some _ => false end)
      host.
Proof.
  intros Hfuel E sock host. unfold SocketStream.start_tls in E.
  match type of E with
  | BaseSocket.start_tls _ _ ?c _ _ = _ =>
      destruct (start_tls_outcome fuel sock c host w Hfuel)
        as (w2 & _ & [(E' & Hraw)|(e' & E' & _)])
  end; fold sock host in E; rewrite E in E'; [|discriminate].
  injection E' as Hw2. subst w2. rewrite Hraw. subst host.
  by destruct context, (SocketStream._ssl_context self),
    (SocketStream._server_hostname self) as [[|]|].
Qed.

Lemma stream_start_tls_wrapper_witness :
  BaseSocket.raw_of 0
    (snd (SocketStream.start_tls 5 (SocketStream.Make 0 (Some (Context 2)) (Some "example.org"%string))
            None w_handshake))
  = SSLSocket 0 (Context 2) false (Some "example.org"%string).
Proof.
  exact (stream_start_tls_wrapper 5 (SocketStream.Make 0 (Some (Context 2)) (Some "example.org"%string))
           None w_handshake _ ltac:(simpl; lia) ltac:(vm_compute; reflexivity)).
Defined.

(** ** SocketStreamServer.accept, the other outcomes *)

(** A failure of the underlying accept is outside the [try]: it comes out
    as it is, and nothing is closed. *)
Theorem accept_propagates_underlying_failure fuel self w e w1 :
  BaseSocket.accept (SocketStreamServer._socket self) w = (Raise e, w1) ->
  SocketStreamServer.accept fuel self w = (Raise e, w1).
Proof.
  intros E. unfold SocketStreamServer.accept. by rewrite (bnd_Raise _ _ _ _ _ E).
Qed.

Lemma accept_propagates_underlying_failure_witness :
  SocketStreamServer.accept 5 listener w_cancelled
  = (Raise CancelledError, after_check w_cancelled).
Proof.
  exact (accept_propagates_underlying_failure 5 listener w_cancelled CancelledError
           (after_check w_cancelled) eq_refl).
Defined.

(** Without a TLS context the accepted socket is returned as a stream with
    nothing more done to it. *)
Theorem accept_without_tls fuel self w sock addr w1 :
  SocketStreamServer._ssl_context self = None ->
  BaseSocket.accept (SocketStreamServer._socket self) w = (Return (sock, addr), w1) ->
  SocketStreamServer.accept fuel self w = (Return (SocketStream.Make sock None None), w1).
Proof.
  intros Hctx E. unfold SocketStreamServer.accept.
  by rewrite (bnd_Return _ _ _ _ _ E), Hctx.
Qed.

Lemma accept_without_tls_witness :
  SocketStreamServer.accept 5 plain_listener w_bad_handshake
  = (Return (SocketStream.Make 1 None None), snd (BaseSocket.accept 0 w_bad_handshake)).
Proof.
  exact (accept_without_tls 5 plain_listener w_bad_handshake 1 peer
           (snd (BaseSocket.accept 0 w_bad_handshake)) eq_refl eq_refl).
Defined.

Lemma accept_after_upgrade_witness :
  (forall w2,
      SocketStream.start_tls 5 (SocketStream.Make 1 None None) (Some (Context 1))
        (snd (BaseSocket.accept 0 w_bad_handshake)) = (Return tt, w2) ->
      SocketStreamServer.accept 5 listener w_bad_handshake
      = (Return (SocketStream.Make 1 None None), w2))
  /\ (forall e w2,
        SocketStream.start_tls 5 (SocketStream.Make 1 None None) (Some (Context 1))
          (snd (BaseSocket.accept 0 w_bad_handshake)) = (Raise e, w2) ->
        exists w',
          SocketStreamServer.accept 5 listener w_bad_handshake = (Raise e, w')
          /\ last (log w') = Some (EvRaw (BaseSocket.raw_of 1 w2) CallClose)
          /\ closed w' = (if decide (BaseSocket.raw_of 1 w2 ∈ detached w2) then closed w2
                         else {[fileno (BaseSocket.raw_of 1 w2)]} ∪ closed w2)).
Proof.
  exact (accept_after_upgrade 5 listener (Context 1) w_bad_handshake 1 peer
           (snd (BaseSocket.accept 0 w_bad_handshake)) eq_refl eq_refl).
Defined.

(** When the upgrade stops before the handshake (the wrap is refused) or
    while it waits (the wait is cancelled), the handle that [accept] closes
    does own the descriptor, and descriptor 1 is released. *)
Lemma accept_releases_descriptor_otherwise :
  fst (SocketStreamServer.accept 5 listener w_wrap_refused) = Raise ValueError
  /\ BaseSocket.raw_of 1 (snd (SocketStreamServer.accept 5 listener w_wrap_refused))
     = PlainSocket 1
  /\ elements (closed (snd (SocketStreamServer.accept 5 listener w_wrap_refused))) = [1]
  /\ fst (SocketStreamServer.accept 5 listener w_cancelled_handshake) = Raise CancelledError
  /\ BaseSocket.raw_of 1 (snd (SocketStreamServer.accept 5 listener w_cancelled_handshake))
     = SSLSocket 1 (Context 1) true None
  /\ elements (closed (snd (SocketStreamServer.accept 5 listener w_cancelled_handshake)))
     = [1].
Proof. split_and!; by vm_compute. Qed.

(** ** receive_exactly and receive_until without reading *)

(** [receive_exactly] of zero bytes returns the empty result, and a
    negative count is refused, without touching the socket or asking the
    scheduler. *)
Theorem receive_exactly_without_reading fuel self n w :
  (n <= 0)%Z ->
  SocketStream.receive_exactly (S fuel) self n w
  = (if (n <? 0)%Z then Raise ValueError else Return [], w).
Proof.
  intros Hn. unfold SocketStream.receive_exactly.
  destruct (Z.ltb_spec n 0) as [?|?]; [done|].
  assert (n = 0%Z) as -> by lia. done.
Qed.

Lemma receive_exactly_without_reading_witness :
  SocketStream.receive_exactly 1 stream0 0 w_cancelled = (Return [], w_cancelled).
Proof.
  exact (receive_exactly_without_reading 0 stream0 0 w_cancelled ltac:(lia)).
Defined.

(** With a limit of zero or less, [receive_until] raises
    [DelimiterNotFound] with no data, without touching the socket. *)
Theorem receive_until_nonpositive_limit fuel self delimiter max_size w :
  (max_size <= 0)%Z ->
  SocketStream.receive_until (S fuel) self delimiter max_size w
  = (Raise (DelimiterNotFound []), w).
Proof.
  intros Hmax. unfold SocketStream.receive_until. cbn [SocketStream.receive_until_loop].
  destruct (Z.ltb_spec (len []) max_size) as [H|?]; [|done].
  unfold len in H. simpl in H. lia.
Qed.

Lemma receive_until_nonpositive_limit_witness :
  SocketStream.receive_until 1 stream0 LF 0 w_hello = (Raise (DelimiterNotFound []), w_hello).
Proof.
  exact (receive_until_nonpositive_limit 0 stream0 LF 0 w_hello ltac:(lia)).
Defined.

(** ** receive_until at the end of the stream *)

(** When the stream ends before the limit with no delimiter in it,
    [receive_until] raises [IncompleteRead] with everything the stream
    held. *)
Theorem receive_until_end_of_stream self d max_size w fuel :
  calm w ->
  search d (rx w) = None ->
  (len (rx w) < max_size)%Z ->
  Z.to_nat max_size + length (script w) < fuel ->
  exists w',
    SocketStream.receive_until fuel self d max_size w = (Raise (IncompleteRead (rx w)), w').
Proof.
  intros Hc Hnone Hlen Hfuel. unfold SocketStream.receive_until.
  destruct (receive_until_loop_calm fuel self d max_size 0 [] w Hc)
    as (w' & _ & [(i & E & Hi & Hs)|[(E & _)|(E & Hmax & _)]]).
  - unfold len. simpl. lia.
  - unfold len. simpl. rewrite Z.sub_0_r. lia.
  - exfalso. simpl in Hs. pose proof (proj1 (search_None d (rx w)) Hnone) as Hall.
    destruct (Nat.le_gt_cases i (length (rx w))) as [Hle|Hgt].
    + rewrite (Hall i Hle) in Hs. discriminate.
    + rewrite drop_ge in Hs by lia.
      specialize (Hall (length (rx w)) (Nat.le_refl _)).
      rewrite drop_ge in Hall by lia. congruence.
  - by exists w'.
  - exfalso. simpl in Hmax. lia.
Qed.

Lemma receive_until_end_of_stream_witness :
  exists w',
    SocketStream.receive_until 200 stream0 LF 100 w_C5
    = (Raise (IncompleteRead (b "abcdefg")), w').
Proof.
  exact (receive_until_end_of_stream stream0 LF 100 w_C5 200 eq_refl eq_refl
           ltac:(vm_compute; reflexivity) ltac:(vm_compute; lia)).
Defined.

(** ** receive_until when the peek is refused *)

(** [receive_until] reads with [MSG_PEEK]. When the socket layer refuses
    that first call (as a TLS wrapper refuses non-zero flags), the
    refusal comes out of [receive_until] and nothing has been consumed. *)
Theorem receive_until_peek_refused fuel self delimiter max_size w e sc :
  not_cancelled w -> (0 < max_size)%Z ->
  script w = Signal e :: sc -> benign (Signal e) = false ->
  let h := BaseSocket.raw_of (SocketStream._socket self) w in
  exists w',
    SocketStream.receive_until (S (S fuel)) self delimiter max_size w = (Raise e, w')
    /\ log w' = log w ++ [EvCheckCancelled; EvRaw h (CallRecv max_size MSG_PEEK)]
    /\ rx_ready w' = rx_ready w /\ rx_pending w' = rx_pending w.
Proof.
  unfold not_cancelled.
  destruct w as [st no nf cl bl ready pending wi pk so sc0 ck wt lg dt].
  cbn [checks script]. intros Hck Hmax -> He; cbv zeta.
  unfold SocketStream.receive_until.
  cbn [SocketStream.receive_until_loop BaseSocket.recv]. unfold raw_recv.
  change (len []) with 0%Z. rewrite Z.sub_0_r.
  replace (0 <? max_size)%Z with true by lia.
  replace (max_size <? 0)%Z with false by lia.
  destruct ck as [|[e'|] ck]; try discriminate Hck;
    destruct e; try discriminate He;
    run; world_fields; split_and?; reflexivity.
Qed.

Lemma receive_until_peek_refused_witness :
  exists w',
    SocketStream.receive_until 2 stream0 LF 100
      (world0 (b "hello") [] [Signal ValueError] [] []) = (Raise ValueError, w')
    /\ log w' = [EvCheckCancelled; EvRaw (PlainSocket 0) (CallRecv 100 MSG_PEEK)]
    /\ rx_ready w' = b "hello" /\ rx_pending w' = [].
Proof.
  exact (receive_until_peek_refused 0 stream0 LF 100
           (world0 (b "hello") [] [Signal ValueError] [] []) ValueError []
           eq_refl ltac:(lia) eq_refl eq_refl).
Defined.

(** ** receive_chunks on a calm world, an example *)

Lemma receive_chunks_calm_witness :
  exists chunks w',
    drain 9 (SocketStream.receive_chunks_resume 9 stream0 2) w_C5
      = (chunks, (Return tt, w'))
    /\ concat chunks = b "abcdefg"
    /\ Forall (fun c => c <> []) chunks.
Proof.
  exact (receive_chunks_calm 9 9 stream0 2 w_C5 eq_refl ltac:(lia)
           ltac:(vm_compute; lia) ltac:(vm_compute; lia)).
Defined.

(** ** receive_delimited_chunks *)

Lemma receive_delimited_chunks_resume_eq f self d max w :
  SocketStream.receive_delimited_chunks_resume f self d max w
  = match SocketStream.receive_until f self d max w with
    | (Return chunk, w1) => (Return (Some chunk), w1)
    | (Raise (IncompleteRead []), w1) => (Return None, w1)
    | (Raise e, w1) => (Raise e, w1)
    | (OutOfFuel, w1) => (OutOfFuel, w1)
    end.
Proof.
  unfold SocketStream.receive_delimited_chunks_resume, bnd. rewrite attempt_eq.
  destruct (SocketStream.receive_until f self d max w) as [[chunk|e|] w1]; try done.
  by destruct e as [| | | | | | |[|x data]| |].
Qed.

(** Driving [receive_delimited_chunks] to its end. It ends without error
    with the frames [chunks] exactly when the successive [receive_until]
    calls return the items of [chunks] and the next one finds the stream
    ended with nothing read. When it ends with an error, that error is the
    one of the [receive_until] call after the frames yielded so far, and it
    is never an [IncompleteRead] with no data. *)
Theorem receive_delimited_chunks_spec fuel f self d max w :
  let gen := SocketStream.receive_delimited_chunks_resume f self d max in
  let next := SocketStream.receive_until f self d max in
  (forall chunks w',
      drain fuel gen w = (chunks, (Return tt, w'))
      <-> (length chunks < fuel
           /\ exists w1, successive next w chunks w1
                         /\ next w1 = (Raise (IncompleteRead []), w')))
  /\ (forall chunks e w',
        drain fuel gen w = (chunks, (Raise e, w')) ->
        e <> IncompleteRead []
        /\ exists w1, successive next w chunks w1 /\ next w1 = (Raise e, w')).
Proof.
  intros gen next. revert w. induction fuel as [|fuel IH]; intros w.
  { split; [|done]. intros chunks w'. split; [done|]. intros (? & _); lia. }
  simpl. subst gen. rewrite receive_delimited_chunks_resume_eq. fold next.
  destruct (next w) as [[chunk|e|] w1] eqn:E.
  - (* a frame *)
    destruct (IH w1) as [IH1 IH2]. split.
    + intros chunks w'. split.
      * intros Hd. destruct chunks as [|c chunks]; [done|].
        injection Hd as <- Hfst Hsnd.
        destruct (proj1 (IH1 chunks w')) as (Hlen & w2 & Hs & Hend).
        { rewrite <- Hfst, <- Hsnd. by destruct (drain fuel _ w1). }
        split; [simpl; lia|]. exists w2. split; [|done]. by econstructor.
      * intros (Hlen & w2 & Hs & Hend). destruct chunks as [|c chunks].
        { inversion Hs; subst. rewrite E in Hend. discriminate. }
        inversion Hs as [|? ? ? ? ? E' Hs']; subst. rewrite E in E'.
        injection E' as <- <-.
        rewrite (proj2 (IH1 chunks w')); [done|].
        split; [simpl in Hlen; lia|]. by exists w2.
    + intros chunks e w' Hd. destruct chunks as [|c chunks]; [done|].
      injection Hd as <- Hfst Hsnd.
      destruct (IH2 chunks e w') as (Hne & w2 & Hs & Hend).
      { rewrite <- Hfst, <- Hsnd. by destruct (drain fuel _ w1). }
      split; [done|]. exists w2. split; [|done]. by econstructor.
  - (* an error, or the end of the stream *)
    destruct e as [| | | | | | |[|x data]| |].
    8: { split.
         - intros chunks w'. split.
           + intros [= <- <-]. split; [simpl; lia|]. exists w. split; [constructor|done].
           + intros (_ & w2 & Hs & Hend). destruct chunks as [|c chunks].
             * inversion Hs; subst. rewrite E in Hend. by injection Hend as <-.
             * inversion Hs as [|? ? ? ? ? E' Hs']; subst. rewrite E in E'. discriminate.
         - intros chunks e w'. discriminate. }
    all: split;
      [ intros chunks w'; split; [discriminate|];
        intros (_ & w2 & Hs & Hend); destruct chunks as [|c chunks];
        [ inversion Hs; subst; rewrite E in Hend; discriminate
        | inversion Hs as [|? ? ? ? ? E' Hs']; subst; rewrite E in E'; discriminate ]
      | intros chunks e' w' [= <- <- <-]; split; [discriminate|]; exists w;
        split; [constructor|done] ].
  - (* out of fuel *)
    split.
    + intros chunks w'. split; [discriminate|].
      intros (_ & w2 & Hs & Hend). destruct chunks as [|c chunks].
      * inversion Hs; subst. rewrite E in Hend. discriminate.
      * inversion Hs as [|? ? ? ? ? E' Hs']; subst. rewrite E in E'. discriminate.
    + intros chunks e w'. discriminate.
Qed.

(** Two complete frames and a clean end; one frame and a cut one. *)
Lemma scenario_delimited_chunks :
  drain 9 (SocketStream.receive_delimited_chunks_resume 9 stream0 LF 100) w_two_frames
  = ([b "a"; b "b"],
     (Return tt, snd (snd (drain 9 (SocketStream.receive_delimited_chunks_resume 9 stream0
                                      LF 100) w_two_frames))))
  /\ fst (drain 9 (SocketStream.receive_delimited_chunks_resume 9 stream0 LF 100)
            w_cut_frame) = [b "a"]
  /\ fst (snd (drain 9 (SocketStream.receive_delimited_chunks_resume 9 stream0 LF 100)
                 w_cut_frame)) = Raise (IncompleteRead (b "b")).
Proof. split_and!; by vm_compute. Qed.

(** ** receive_packets *)

(** On a closed (or detached) socket the generator ends at once: nothing
    is received, nothing is asked of the scheduler. *)
Theorem receive_packets_ends_on_closed_socket self max_size w :
  let h := BaseSocket.raw_of (DatagramSocket._socket self) w in
  h ∈ detached w \/ fileno h ∈ closed w ->
  DatagramSocket.receive_packets_resume self max_size w = (Return None, w).
Proof.
  intros h Hdead.
  unfold DatagramSocket.receive_packets_resume, BaseSocket.fileno,
    BaseSocket._raw_socket, raw_fileno, get, bnd, ret. fold h.
  destruct (decide (h ∈ detached w)) as [?|Hnd]; [done|].
  destruct Hdead as [?|Hcl]; [done|]. by rewrite decide_True.
Qed.

Lemma receive_packets_ends_on_closed_socket_witness :
  DatagramSocket.receive_packets_resume (DatagramSocket.Make 0) 100 w_closed_datagram
  = (Return None, w_closed_datagram).
Proof.
  refine (receive_packets_ends_on_closed_socket (DatagramSocket.Make 0) 100
            w_closed_datagram _).
  right. change (0 ∈ ({[ 0 ]} : gset nat)). by apply elem_of_singleton.
Defined.

(** Whatever happens, no packet that [receive_packets] yields is empty. *)
Theorem receive_packets_yields_no_empty_packet fuel self max_size w :
  Forall (fun p => fst p <> [])
    (fst (drain fuel (DatagramSocket.receive_packets_resume self max_size) w)).
Proof.
  revert w. induction fuel as [|fuel IH]; intros w; [constructor|].
  simpl.
  destruct (DatagramSocket.receive_packets_resume self max_size w)
    as [[[p|]|e|] w1] eqn:E; try constructor; [|apply IH].
  unfold DatagramSocket.receive_packets_resume, bnd in E.
  destruct (BaseSocket.fileno _ w) as [[fd|e|] w0]; try discriminate.
  destruct (fd =? -1)%Z; [discriminate|].
  destruct (DatagramSocket.receive self max_size w0) as [[r|e|] w2]; try discriminate.
  destruct (fst r) as [|x data] eqn:Er; [discriminate|].
  injection E as <- _. by rewrite Er.
Qed.

(** An empty datagram ends the iteration, although the socket is open and
    another datagram is queued behind it. *)
Lemma scenario_empty_datagram :
  let r := drain 9 (DatagramSocket.receive_packets_resume (DatagramSocket.Make 0) 100)
             w_datagrams in
  fst r = [(b "a", peer)]
  /\ fst (snd r) = Return tt
  /\ packets (snd (snd r)) = [(b "b", peer)]
  /\ elements (closed (snd (snd r))) = [].
Proof. split_and!; by vm_compute. Qed.
